(** * RDP file server (a3/src/RDP_Server.py): model and verification

    The server is a single-threaded Python program that owns a UDP socket
    and at most one [Connection].  Its methods mutate [self.conn] and
    [self.sock], talk to the network, write log records and may raise.
    They are embedded here as functions in a state-and-exception monad
    over the server object and the outside world.

    [RDP_Protocol] (messages, the [Connection] class, the reliable-send
    primitive, the configuration constants) is imported by the server but
    is not part of the verified sources; its parts are either fields of
    [Config] or definitions marked "Modelled from the spec". *)

From Stdlib Require Import List ZArith Lia Bool String Ascii Arith.
From Stdlib Require Import Strings.Byte.
From Equations.Prop Require Import Equations Logic.
Import ListNotations.

Set Implicit Arguments.

(** ** Data model *)

Definition bytes := list byte.

(** A socket address, the Python tuple [(ip, port)]. *)
Definition Address := (string * Z)%type.

Definition Address_eqb (a b : Address) : bool :=
  (String.eqb (fst a) (fst b) && Z.eqb (snd a) (snd b))%bool.

(** Python values that may be [None]: [==] on them. *)
Definition adr_eqb (a b : option Address) : bool :=
  match a, b with
  | Some x, Some y => Address_eqb x y
  | None, None => true
  | _, _ => false
  end.

(** [not x] for a value that is [None] or an object; an object of the
    program's classes counts as true. *)
Definition is_none {A} (o : option A) : bool :=
  match o with None => true | Some _ => false end.

(** The kind tag of a message ([message.packet_type]). *)
Inductive PacketType := SYN | ACK | APP | FIN.

Definition PacketType_eqb (a b : PacketType) : bool :=
  match a, b with
  | SYN, SYN | ACK, ACK | APP, APP | FIN, FIN => true
  | _, _ => false
  end.

(** What an attribute lookup on a Python object can give back. *)
Inductive PyVal :=
| VAdr (a : option Address)
| VInt (z : Z)
| VMethod (name : string).

(** The configuration constants that [RDP_Server] takes from
    [RDP_Protocol]; their values are not fixed by the server's code. *)
Record Config := {
  DEFAULT_RETRY_THRESHOLD : nat;
  MAX_PAYLOAD_SIZE : Z;
  HTTP_CODE_LEN : Z;
  HTTP_OK_ENCODED : bytes;
  HTTP_FILE_NOT_FOUND_ENCODED : bytes;
  (** the sequence number a new [Connection] starts to send with *)
  INITIAL_SEQ_NO : Z;
  (** what reading the attribute [adr] of a [Connection] gives, from
      the values of its three fields; [None] when the class, which is
      not among the verified sources, has no such attribute *)
  CONNECTION_ADR : option (option Address -> Z -> Z -> PyVal)
}.

Module Message.

  (** Modelled from the spec: the Message class of RDP_Protocol, an
      immutable value with a kind, two counters, a payload and the
      address the datagram came from ([None] on a message built
      locally). *)
Record t := mk {
    packet_type : PacketType;
    seq_no : Z;
    ack_no : Z;
    payload : bytes;
    src_adr : option Address
  }.

Definition is_syn (m : t) : bool := PacketType_eqb (packet_type m) SYN.
Definition is_ack_only (m : t) : bool := PacketType_eqb (packet_type m) ACK.
Definition is_fin (m : t) : bool := PacketType_eqb (packet_type m) FIN.

  (** The payload read as text; Python's decoding is taken to succeed. *)
Definition get_payload_as_text (m : t) : string :=
    string_of_list_byte (payload m).

End Message.

(** Modelled from the spec: the message constructors of RDP_Protocol. *)
Definition create_syn_message (seq ack : Z) : Message.t :=
  Message.mk SYN seq ack [] None.
Definition create_app_message (seq ack : Z) (data : bytes) : Message.t :=
  Message.mk APP seq ack data None.
Definition create_fin_message (seq ack : Z) : Message.t :=
  Message.mk FIN seq ack [] None.

Module Connection.

  (** Modelled from the spec: the Connection class of RDP_Protocol.  The
      spec's data model gives it the peer's address, the next sequence
      number to send and the last sequence number received; the first and
      the last are read by the server as [remote_adr] and
      [last_index_received]. *)
Record t := mk {
    remote_adr : option Address;
    last_index_received : Z;
    next_seq_no : Z
  }.

  (** [Connection(remote_adr, remote_seq_no)] *)
Definition init (cfg : Config) (remote : option Address) (remote_seq : Z) : t :=
    mk remote remote_seq (INITIAL_SEQ_NO cfg).

  (** The server's own error message prints the expected index as
      [last_index_received + 1]. *)
Definition next_expected_index (c : t) : Z := (last_index_received c + 1)%Z.

Definition increment_next_expected_index (c : t) : t :=
    mk (remote_adr c) (last_index_received c + 1)%Z (next_seq_no c).

Definition get_seq_and_increment (c : t) : Z * t :=
    (next_seq_no c, mk (remote_adr c) (last_index_received c) (next_seq_no c + 1)%Z).

  (** Attribute lookup [c.name]: the attributes the server reads and the
    methods it calls are there; [adr], which only the log line of the
    foreign-address branch reads, is there or not as the configuration
    says.  [None] stands for AttributeError. *)
Definition getattr (cfg : Config) (c : t) (name : string) : option PyVal :=
  if String.eqb name "remote_adr" then Some (VAdr (remote_adr c))
  else if String.eqb name "last_index_received" then Some (VInt (last_index_received c))
  else if String.eqb name "next_expected_index" then Some (VMethod name)
  else if String.eqb name "increment_next_expected_index" then Some (VMethod name)
  else if String.eqb name "get_seq_and_increment" then Some (VMethod name)
  else if String.eqb name "adr" then
    option_map (fun f => f (remote_adr c) (last_index_received c) (next_seq_no c))
      (CONNECTION_ADR cfg)
  else None.

End Connection.

(** ** The outside world: network, file system, sockets, log *)

Definition SockId := nat.

(** What the network delivers to the server's socket.  [Silence] is one
    acknowledgment timeout ([DEFAULT_ACK_TIMEOUT_SECONDS]) during which
    nothing arrives; [Interrupt] is a user interrupt hitting the blocked
    process.  After the last listed event nothing arrives any more. *)
Inductive InEvent :=
| Arrive (m : Message.t)
| Silence
| Interrupt.

(** A datagram handed to [sendto]. *)
Record Datagram := {
  dg_sock : SockId;
  dg_dest : option Address;
  dg_msg : Message.t
}.

Inductive Level := DEBUG | INFO | WARNING.

(** Why a connection was abandoned. *)
Inductive Cause :=
| Connection_timeout_expired
| Bad_sequence_number (got expected : Z)
| Maximum_retries_exceeded.

(** The log lines of RDP_Server.py, one constructor per format string. *)
Inductive LogText :=
| Created_and_bound_socket (port : Z)
| Serving_on (adr : Address)
| Client_connectivity_lost (cause : Cause)
| Dispatching_message
| Existing_connection_dropping (conn_adr : PyVal) (src : option Address)
| Non_SYN_without_connection
| Failed_to_dispatch
| SYN_from_connected_client
| Connection_request_from (src : option Address)
| Using_base_sequence_number (seq : Z)
| Received_request_for (filename : string)
| No_such_file (filename : string)
| Sending_data_in_chunks (n : nat)
| Cannot_close_connection
| Closing_connection
| No_ACK_for_FIN
| FIN_ACK_not_FIN
| Received_FIN_ACK.

Record World := {
  inbox : list InEvent;
  wire : list Datagram;                 (* datagrams sent, oldest first *)
  journal : list (Level * LogText);     (* logging calls, oldest first *)
  files : list (string * bytes);        (* the regular files *)
  open_socks : list SockId;             (* sockets not yet closed *)
  bound : list (SockId * Address);
  next_sock : SockId;
  bind_refused : bool                   (* bind raises OSError *)
}.

Definition with_inbox (evs : list InEvent) (w : World) : World :=
  {| inbox := evs; wire := wire w; journal := journal w; files := files w;
     open_socks := open_socks w; bound := bound w; next_sock := next_sock w;
     bind_refused := bind_refused w |}.

Definition transmit (fd : SockId) (dest : option Address) (m : Message.t)
    (w : World) : World :=
  {| inbox := inbox w;
     wire := wire w ++ [ {| dg_sock := fd; dg_dest := dest; dg_msg := m |} ];
     journal := journal w; files := files w;
     open_socks := open_socks w; bound := bound w; next_sock := next_sock w;
     bind_refused := bind_refused w |}.

Definition write_log (l : Level) (t : LogText) (w : World) : World :=
  {| inbox := inbox w; wire := wire w; journal := journal w ++ [(l, t)];
     files := files w;
     open_socks := open_socks w; bound := bound w; next_sock := next_sock w;
     bind_refused := bind_refused w |}.

(** ** Results of running Python code *)

Inductive AssertSite :=
| Requires_SYN_packet
| Same_remote_address
| Needs_connection
| Data_chunk_too_large.

Inductive Exn :=
| AttributeError (attr : string)
| AssertionError (site : AssertSite)
| KeyboardInterrupt
| OSError
| FileNotFoundError
| socket_timeout.

(** [Pending]: the call has not come back (it waits for a datagram that
    never arrives, or the loop is still going round). *)
Inductive Outcome (A : Type) :=
| Return (a : A)
| Raise (e : Exn)
| Pending.
Arguments Raise {A} e.
Arguments Pending {A}.

(** Code that only touches the world. *)
Definition IO (A : Type) := World -> Outcome A * World.

(** The result of one bounded or unbounded wait on the socket. *)
Inductive Recv :=
| Got (m : Message.t)
| TimedOut
| Interrupted.

(** Wait at most [ticks] acknowledgment timeouts. *)
Fixpoint recv_within (ticks : nat) (evs : list InEvent) : Recv * list InEvent :=
  match ticks with
  | O => (TimedOut, evs)
  | S k =>
      match evs with
      | [] => (TimedOut, [])
      | Arrive m :: rest => (Got m, rest)
      | Silence :: rest => recv_within k rest
      | Interrupt :: rest => (Interrupted, rest)
      end
  end.

(** Wait without a timeout; [TimedOut] here means nothing ever arrives. *)
Fixpoint recv_blocking (evs : list InEvent) : Recv * list InEvent :=
  match evs with
  | [] => (TimedOut, [])
  | Arrive m :: rest => (Got m, rest)
  | Silence :: rest => recv_blocking rest
  | Interrupt :: rest => (Interrupted, rest)
  end.

(** Modelled from the spec: the loop of the Reliable-Send Primitive
    send_until_ack_in of RDP_Protocol: transmit, wait one acknowledgment
    timeout for an inbound message, retransmit the identical message on a
    timeout, give up with "no acknowledgment" ([None]) after the retry
    threshold; a response is handed back as it is. *)
Fixpoint send_attempts (attempts : nat) (message : Message.t) (fd : SockId)
    (adr : option Address) : IO (option Message.t) :=
  fun w =>
    match attempts with
    | O => (Return None, w)
    | S k =>
        let w1 := transmit fd adr message w in
        match recv_within 1 (inbox w1) with
        | (Got r, evs) => (Return (Some r), with_inbox evs w1)
        | (TimedOut, evs) => send_attempts k message fd adr (with_inbox evs w1)
        | (Interrupted, evs) => (Raise KeyboardInterrupt, with_inbox evs w1)
        end
    end.

(** Modelled from the spec: send_until_ack_in of RDP_Protocol, given the
    message, the socket to send on and the destination address. *)
Definition send_until_ack_in (cfg : Config) (message : Message.t)
    (sock : option SockId) (adr : option Address) : IO (option Message.t) :=
  match sock with
  | None => fun w => (Raise (AttributeError "sendto"), w)
  | Some fd => send_attempts (DEFAULT_RETRY_THRESHOLD cfg) message fd adr
  end.

(** Modelled from the spec: try_read_message of RDP_Protocol, the
    server's top-level receive.  [block = None] waits indefinitely,
    [block = Some ticks] raises socket.timeout after that many
    acknowledgment timeouts. *)
Definition try_read_message (sock : option SockId) (block : option nat)
    : IO Message.t :=
  fun w =>
    match sock with
    | None => (Raise (AttributeError "recvfrom"), w)
    | Some _ =>
        match block with
        | None =>
            match recv_blocking (inbox w) with
            | (Got m, evs) => (Return m, with_inbox evs w)
            | (TimedOut, evs) => (Pending, with_inbox evs w)
            | (Interrupted, evs) => (Raise KeyboardInterrupt, with_inbox evs w)
            end
        | Some ticks =>
            match recv_within ticks (inbox w) with
            | (Got m, evs) => (Return m, with_inbox evs w)
            | (TimedOut, evs) => (Raise socket_timeout, with_inbox evs w)
            | (Interrupted, evs) => (Raise KeyboardInterrupt, with_inbox evs w)
            end
        end
    end.

(** Sockets as the operating system hands them out. *)
Definition socket_socket : IO SockId :=
  fun w =>
    (Return (next_sock w),
     {| inbox := inbox w; wire := wire w; journal := journal w; files := files w;
        open_socks := next_sock w :: open_socks w; bound := bound w;
        next_sock := S (next_sock w); bind_refused := bind_refused w |}).

Definition sock_bind (fd : SockId) (adr : Address) : IO unit :=
  fun w =>
    if bind_refused w then (Raise OSError, w)
    else
      (Return tt,
       {| inbox := inbox w; wire := wire w; journal := journal w; files := files w;
          open_socks := open_socks w; bound := (fd, adr) :: bound w;
          next_sock := next_sock w; bind_refused := bind_refused w |}).

Fixpoint lookup_bound (fd : SockId) (l : list (SockId * Address)) : option Address :=
  match l with
  | [] => None
  | (fd', a) :: rest => if Nat.eqb fd fd' then Some a else lookup_bound fd rest
  end.

Definition sock_getsockname (fd : SockId) : IO Address :=
  fun w =>
    match lookup_bound fd (bound w) with
    | Some a => (Return a, w)
    | None => (Raise OSError, w)
    end.

Definition sock_close (fd : SockId) : IO unit :=
  fun w =>
    (Return tt,
     {| inbox := inbox w; wire := wire w; journal := journal w; files := files w;
        open_socks := filter (fun x => negb (Nat.eqb x fd)) (open_socks w);
        bound := bound w; next_sock := next_sock w;
        bind_refused := bind_refused w |}).

Definition socket_is_open (fd : SockId) (w : World) : bool :=
  existsb (Nat.eqb fd) (open_socks w).

(** The file system: [os.path.isfile] and the bytes of a file. *)
Fixpoint lookup_file (name : string) (fs : list (string * bytes)) : option bytes :=
  match fs with
  | [] => None
  | (n, content) :: rest =>
      if String.eqb name n then Some content else lookup_file name rest
  end.

Definition os_path_isfile (name : string) (w : World) : bool :=
  negb (is_none (lookup_file name (files w))).

(** [file.read(size)] on the bytes not yet read, for the sizes on which
    the call returns: a size of at least 0 that the platform can
    allocate reads at most that many bytes, and -1 reads to the end of
    the file.  (CPython raises ValueError below -1 and OverflowError
    beyond the platform's ssize_t; the server passes
    [MAX_PAYLOAD_SIZE - HTTP_CODE_LEN], and the statements about other
    sizes name their range.) *)
Definition file_read (size : Z) (rest : bytes) : bytes * bytes :=
  if (size <? 0)%Z then (rest, [])
  else (firstn (Z.to_nat size) rest, skipn (Z.to_nat size) rest).

(** The reading loop of [_get_data_from_file]:
    [chunk = file.read(n); while chunk: chunks.append(chunk); chunk = file.read(n)]. *)
Equations? read_chunks (chunk_size : Z) (rest : bytes) : list bytes
  by wf (List.length rest) lt :=
  read_chunks chunk_size rest with inspect (file_read chunk_size rest) := {
    | exist _ ([], _) _ => [];
    | exist _ (b :: chunk, rest') Heq => (b :: chunk) :: read_chunks chunk_size rest' }.
Proof.
  clear read_chunks. revert Heq. unfold file_read.
  destruct (chunk_size <? 0)%Z; intros Heq; inversion Heq; subst.
  - simpl. lia.
  - rewrite length_skipn.
    destruct (Z.to_nat chunk_size); [simpl in *; congruence |].
    destruct rest; [simpl in *; congruence | simpl; lia].
Qed.

(** [Server._get_data_from_file], on the bytes of the opened file. *)
Definition _get_data_from_file (content : bytes) (chunk_size : Z) : list bytes :=
  let chunks := read_chunks chunk_size content in
  match chunks with
  | [] => [ [] ]
  | _ => chunks
  end.

(** ** The server *)

Module Server.

(** The fields of a [Server] object. *)
Record t := mk {
  adr : Address;
  sock : option SockId;
  conn : option Connection.t
}.

Definition St := (t * World)%type.

(** A method body: it may change the object and the world, and it
    returns, raises or does not come back. *)
Definition Py (A : Type) := St -> Outcome A * St.

Definition ret {A} (a : A) : Py A := fun st => (Return a, st).

Definition raise {A} (e : Exn) : Py A := fun st => (Raise e, st).

Definition bind {A B} (m : Py A) (k : A -> Py B) : Py B :=
  fun st =>
    match m st with
    | (Return a, st') => k a st'
    | (Raise e, st') => (Raise e, st')
    | (Pending, st') => (Pending, st')
    end.

Notation "x <- m ;; k" := (bind m (fun x => k))
  (at level 61, m at next level, right associativity).
Notation "m ;; k" := (bind m (fun _ => k))
  (at level 61, right associativity).

Definition self : Py t := fun st => (Return (fst st), st).

Definition set_conn (c : option Connection.t) : Py unit :=
  fun st => (Return tt, (mk (adr (fst st)) (sock (fst st)) c, snd st)).

Definition set_sock (s : option SockId) : Py unit :=
  fun st => (Return tt, (mk (adr (fst st)) s (conn (fst st)), snd st)).

Definition set_adr (a : Address) : Py unit :=
  fun st => (Return tt, (mk a (sock (fst st)) (conn (fst st)), snd st)).

Definition io {A} (f : IO A) : Py A :=
  fun st => let (r, w) := f (snd st) in (r, (fst st, w)).

Definition world : Py World := fun st => (Return (snd st), st).

Definition logging (l : Level) (text : LogText) : Py unit :=
  fun st => (Return tt, (fst st, write_log l text (snd st))).

Definition assert (b : bool) (site : AssertSite) : Py unit :=
  if b then ret tt else raise (AssertionError site).

(** [self.conn.attr]: on [None] the lookup raises AttributeError. *)
Definition self_conn (attr : string) : Py Connection.t :=
  s <- self ;;
  match conn s with
  | Some c => ret c
  | None => raise (AttributeError attr)
  end.

(** [try: body except socket.timeout: handler] *)
Definition except_timeout {A} (body handler : Py A) : Py A :=
  fun st =>
    match body st with
    | (Raise socket_timeout, st') => handler st'
    | r => r
    end.

Section WithConfig.

Variable cfg : Config.

Definition _abandon_connection (cause : Cause) : Py unit :=
  logging WARNING (Client_connectivity_lost cause) ;;
  set_conn None.

Definition _send_until_ack_in (message : Message.t) : Py (option Message.t) :=
  s <- self ;;
  c <- self_conn "remote_adr" ;;
  ack <- io (send_until_ack_in cfg message (sock s) (Connection.remote_adr c)) ;;
  (if is_none ack then _abandon_connection Maximum_retries_exceeded else ret tt) ;;
  ret ack.

Definition _receive_connection (syn : Message.t) : Py (option Message.t) :=
  assert (Message.is_syn syn) Requires_SYN_packet ;;
  s <- self ;;
  match conn s with
  | Some c =>
      assert (adr_eqb (Connection.remote_adr c) (Message.src_adr syn))
        Same_remote_address ;;
      logging WARNING SYN_from_connected_client
  | None => logging INFO (Connection_request_from (Message.src_adr syn))
  end ;;
  let c0 := Connection.init cfg (Message.src_adr syn) (Message.seq_no syn) in
  let ack_no := Connection.last_index_received c0 in
  let (seq_no, c1) := Connection.get_seq_and_increment c0 in
  set_conn (Some c1) ;;
  let reply := create_syn_message seq_no ack_no in
  logging INFO (Using_base_sequence_number seq_no) ;;
  ack <- _send_until_ack_in reply ;;
  ret ack.

Definition _send_data (data : bytes) : Py (option Message.t) :=
  assert (Z.of_nat (List.length data) <=? MAX_PAYLOAD_SIZE cfg)%Z
    Data_chunk_too_large ;;
  c <- self_conn "last_index_received" ;;
  let ack_no := Connection.last_index_received c in
  let (seq_no, c') := Connection.get_seq_and_increment c in
  set_conn (Some c') ;;
  let msg := create_app_message seq_no ack_no data in
  _send_until_ack_in msg.

Definition _close_connection : Py unit :=
  s <- self ;;
  match conn s with
  | None => logging WARNING Cannot_close_connection
  | Some c =>
      logging INFO Closing_connection ;;
      let (seq, c') := Connection.get_seq_and_increment c in
      set_conn (Some c') ;;
      let ack := Connection.last_index_received c' in
      let fin_msg := create_fin_message seq ack in
      fin_ack_msg <- _send_until_ack_in fin_msg ;;
      match fin_ack_msg with
      | None => logging WARNING No_ACK_for_FIN
      | Some m =>
          if negb (Message.is_fin m) then logging WARNING FIN_ACK_not_FIN
          else logging INFO Received_FIN_ACK
      end ;;
      set_conn None
  end.

(** The [for chunk in chunks] loop of [_process_get_request]; [false]
    when the method returned from inside the loop. *)
Fixpoint send_chunks (chunks : list bytes) : Py bool :=
  match chunks with
  | [] => ret true
  | chunk :: rest =>
      ack <- _send_data (HTTP_OK_ENCODED cfg ++ chunk) ;;
      if is_none ack then ret false else send_chunks rest
  end.

(** [open(filename, 'rb')] and the reading of [_get_data_from_file].  The
    file system lists the regular files that can be opened for reading;
    a regular file on which [open] fails (no permission) is outside it. *)
Definition get_data_from (filename : string) (chunk_size : Z) : Py (list bytes) :=
  w <- world ;;
  match lookup_file filename (files w) with
  | None => raise FileNotFoundError
  | Some content => ret (_get_data_from_file content chunk_size)
  end.

Definition _process_get_request (message : Message.t) : Py unit :=
  s <- self ;;
  assert (negb (is_none (conn s))) Needs_connection ;;
  let filename := Message.get_payload_as_text message in
  logging INFO (Received_request_for filename) ;;
  c <- self_conn "increment_next_expected_index" ;;
  set_conn (Some (Connection.increment_next_expected_index c)) ;;
  w <- world ;;
  sent <-
    (if negb (os_path_isfile filename w) then
       logging INFO (No_such_file filename) ;;
       ack <- _send_data (HTTP_FILE_NOT_FOUND_ENCODED cfg) ;;
       ret (negb (is_none ack))
     else
       let chunk_size := (MAX_PAYLOAD_SIZE cfg - HTTP_CODE_LEN cfg)%Z in
       chunks <- get_data_from filename chunk_size ;;
       logging INFO (Sending_data_in_chunks (List.length chunks)) ;;
       send_chunks chunks) ;;
  if sent : bool then _close_connection else ret tt.

(** [self.conn and self.conn.remote_adr != message.src_adr] *)
Definition foreign_address (s : t) (message : Message.t) : bool :=
  match conn s with
  | Some c => negb (adr_eqb (Connection.remote_adr c) (Message.src_adr message))
  | None => false
  end.

(** [Server._dispatch], with a bound on the depth of its recursion. *)
Fixpoint dispatch_rec (depth : nat) (message : Message.t) : Py unit :=
  match depth with
  | O => fun st => (Pending, st)
  | S depth' =>
      logging DEBUG Dispatching_message ;;
      s <- self ;;
      if foreign_address s message then
        c <- self_conn "adr" ;;
        match Connection.getattr cfg c "adr" with
        | Some v =>
            logging WARNING (Existing_connection_dropping v (Message.src_adr message))
        | None => raise (AttributeError "adr")
        end
      else if Message.is_syn message then
        ack <- _receive_connection message ;;
        match ack with
        | Some a =>
            if negb (Message.is_ack_only a) then dispatch_rec depth' a else ret tt
        | None => ret tt
        end
      else if is_none (conn s) then
        logging WARNING Non_SYN_without_connection
      else
        c <- self_conn "next_expected_index" ;;
        if negb (Message.seq_no message =? Connection.next_expected_index c)%Z then
          _abandon_connection
            (Bad_sequence_number (Message.seq_no message)
               (Connection.last_index_received c + 1)%Z)
        else if PacketType_eqb (Message.packet_type message) APP then
          _process_get_request message
        else
          logging WARNING Failed_to_dispatch
  end.

(** [Server._dispatch]: every nested call follows a response taken from
    the network, so the events still to come bound the depth. *)
Definition _dispatch (message : Message.t) : Py unit :=
  fun st => dispatch_rec (S (List.length (inbox (snd st)))) message st.

(** [CONNECTION_TIMEOUT], counted in acknowledgment timeouts. *)
Definition CONNECTION_TIMEOUT : nat := DEFAULT_RETRY_THRESHOLD cfg.

(** One round of the [while True] loop of [_serve_loop]. *)
Definition serve_round : Py unit :=
  except_timeout
    (s <- self ;;
     (if is_none (conn s) then logging INFO (Serving_on (adr s)) else ret tt) ;;
     let block := if is_none (conn s) then None else Some CONNECTION_TIMEOUT in
     message <- io (try_read_message (sock s) block) ;;
     _dispatch message)
    (_abandon_connection Connection_timeout_expired).

(** [Server._serve_loop], followed for [rounds] rounds; the loop has no
    exit but an exception. *)
Fixpoint _serve_loop (rounds : nat) : Py unit :=
  match rounds with
  | O => fun st => (Pending, st)
  | S k => serve_round ;; _serve_loop k
  end.

Definition _create_and_bind_socket : Py unit :=
  s <- self ;;
  fd <- io socket_socket ;;
  io (sock_bind fd (adr s)) ;;
  set_sock (Some fd) ;;
  a <- io (sock_getsockname fd) ;;
  set_adr a ;;
  logging DEBUG (Created_and_bound_socket (snd a)).

(** [try: body finally: final]: an exception of [final] replaces the
    outcome of [body]. *)
Definition try_finally {A} (body : Py A) (final : Py unit) : Py A :=
  fun st =>
    match body st with
    | (Pending, st') => (Pending, st')
    | (r, st') =>
        match final st' with
        | (Return _, st'') => (r, st'')
        | (Raise e, st'') => (Raise e, st'')
        | (Pending, st'') => (Pending, st'')
        end
    end.

(** [Server.serve]; the [except: raise] clause re-raises as it is. *)
Definition serve (rounds : nat) : Py unit :=
  try_finally
    (_create_and_bind_socket ;; _serve_loop rounds)
    (s <- self ;;
     match sock s with
     | Some fd => io (sock_close fd)
     | None => raise (AttributeError "close")
     end ;;
     set_sock None).

End WithConfig.

End Server.

(** ** The message codec *)

Module Codec.

(** Modelled from the spec: the wire layout of RDP_Protocol, a
    fixed-layout header (kind tag, then sequence and acknowledgment
    number as fixed-width unsigned integers) followed by the payload.
    The spec leaves the width and the tag values open. *)
Record Layout := {
  SEQ_WIDTH : nat;                      (* bytes per counter *)
  kind_tag : PacketType -> byte
}.

Definition header_length (L : Layout) : nat := 1 + SEQ_WIDTH L + SEQ_WIDTH L.

(** The counters wrap at this modulus. *)
Definition modulus (L : Layout) : Z := (256 ^ Z.of_nat (SEQ_WIDTH L))%Z.

Definition byte_of_Z (z : Z) : byte :=
  match Byte.of_N (Z.to_N z) with
  | Some b => b
  | None => x00
  end.

Definition Z_of_byte (b : byte) : Z := Z.of_N (Byte.to_N b).

(** Big-endian, [width] bytes. *)
Fixpoint encode_uint (width : nat) (n : Z) : bytes :=
  match width with
  | O => []
  | S k => encode_uint k (n / 256)%Z ++ [byte_of_Z (n mod 256)%Z]
  end.

Definition decode_uint (bs : bytes) : Z :=
  fold_left (fun acc b => (acc * 256 + Z_of_byte b)%Z) bs 0%Z.

Definition kind_of_tag (L : Layout) (b : byte) : option PacketType :=
  find (fun k => Byte.eqb (kind_tag L k) b) [SYN; ACK; APP; FIN].

Inductive DecodeError := MalformedMessage.

(** Modelled from the spec: the encoder of the Message Codec. *)
Definition encode (L : Layout) (m : Message.t) : bytes :=
  kind_tag L (Message.packet_type m)
    :: encode_uint (SEQ_WIDTH L) (Message.seq_no m)
    ++ encode_uint (SEQ_WIDTH L) (Message.ack_no m)
    ++ Message.payload m.

(** Modelled from the spec: the decoder of the Message Codec; it fails
    with MalformedMessage on a buffer shorter than the header and on an
    unrecognized kind tag.  The source address comes from the datagram. *)
Definition decode (L : Layout) (data : bytes) (src : option Address)
    : DecodeError + Message.t :=
  if List.length data <? header_length L then inl MalformedMessage
  else
    match data with
    | [] => inl MalformedMessage
    | tag :: rest =>
        match kind_of_tag L tag with
        | None => inl MalformedMessage
        | Some kind =>
            let seq := decode_uint (firstn (SEQ_WIDTH L) rest) in
            let rest' := skipn (SEQ_WIDTH L) rest in
            let ack := decode_uint (firstn (SEQ_WIDTH L) rest') in
            inr (Message.mk kind seq ack (skipn (SEQ_WIDTH L) rest') src)
        end
    end.

(** The (sequence, acknowledgment, kind, payload) tuples a message may
    carry under a layout and a payload limit. *)
Definition valid (L : Layout) (max_payload : Z) (m : Message.t) : Prop :=
  (0 <= Message.seq_no m < modulus L)%Z /\
  (0 <= Message.ack_no m < modulus L)%Z /\
  (Z.of_nat (List.length (Message.payload m)) <= max_payload)%Z.

Definition tags_distinct (L : Layout) : Prop :=
  forall k1 k2, kind_tag L k1 = kind_tag L k2 -> k1 = k2.

End Codec.

(** ** Notions used in the statements *)

(** Nothing arrives during the next [k] acknowledgment timeouts. *)
Fixpoint silent_for (k : nat) (evs : list InEvent) : bool :=
  match k with
  | O => true
  | S k' =>
      match evs with
      | [] => true
      | Silence :: rest => silent_for k' rest
      | _ => false
      end
  end.

(** The world after [k] transmissions of one datagram. *)
Definition sent_times (k : nat) (fd : SockId) (dest : option Address)
    (m : Message.t) (w : World) : World :=
  {| inbox := inbox w;
     wire := wire w ++ repeat {| dg_sock := fd; dg_dest := dest; dg_msg := m |} k;
     journal := journal w; files := files w;
     open_socks := open_socks w; bound := bound w; next_sock := next_sock w;
     bind_refused := bind_refused w |}.

(** The server object with another connection field. *)
Definition with_conn (c : option Connection.t) (s : Server.t) : Server.t :=
  Server.mk (Server.adr s) (Server.sock s) c.

(** The messages of a kind among the datagrams sent. *)
Definition sent_of_kind (k : PacketType) (w : World) : list Datagram :=
  filter (fun d => PacketType_eqb (Message.packet_type (dg_msg d)) k) (wire w).

(** Every exception [m] raises satisfies [P]. *)
Definition raises_only (P : Exn -> Prop) {A} (m : Server.Py A) : Prop :=
  forall st e st', m st = (Raise e, st') -> P e.

(** The log line [_receive_connection] greets a SYN with. *)
Definition syn_greeting (s : Server.t) (m : Message.t) : Level * LogText :=
  match Server.conn s with
  | Some _ => (WARNING, SYN_from_connected_client)
  | None => (INFO, Connection_request_from (Message.src_adr m))
  end.

(** The connection a SYN creates, after the reply took its sequence
    number, and the state in which the reply is sent. *)
Definition syn_connection (cfg : Config) (m : Message.t) : Connection.t :=
  Connection.mk (Message.src_adr m) (Message.seq_no m) (INITIAL_SEQ_NO cfg + 1)%Z.

Definition syn_reply (cfg : Config) (m : Message.t) : Message.t :=
  create_syn_message (INITIAL_SEQ_NO cfg) (Message.seq_no m).

Definition syn_accepted (cfg : Config) (m : Message.t) (st : Server.St) : Server.St :=
  (with_conn (Some (syn_connection cfg m)) (fst st),
   write_log INFO (Using_base_sequence_number (INITIAL_SEQ_NO cfg))
     (write_log (fst (syn_greeting (fst st) m)) (snd (syn_greeting (fst st) m))
        (snd st))).

(** The reading of "a bad sequence number abandons the connection" that
    covers every message of the connected peer. *)
Definition every_bad_sequence_abandons (cfg : Config) : Prop :=
  forall m s w c,
    Server.conn s = Some c ->
    Connection.remote_adr c = Message.src_adr m ->
    Message.seq_no m <> Connection.next_expected_index c ->
    Server.conn (fst (snd (Server._dispatch cfg m (s, w)))) = None.

(** The constants fit together: a chunk has room next to the status
    code, whose encoding has the declared length. *)
Definition chunks_fit (cfg : Config) : Prop :=
  (0 < MAX_PAYLOAD_SIZE cfg - HTTP_CODE_LEN cfg)%Z /\
  Z.of_nat (List.length (HTTP_OK_ENCODED cfg)) = HTTP_CODE_LEN cfg.

(** ** A small configuration and scenario *)

Definition sample_config : Config :=
  {| DEFAULT_RETRY_THRESHOLD := 3;
     MAX_PAYLOAD_SIZE := 8;
     HTTP_CODE_LEN := 3;
     HTTP_OK_ENCODED := [x32; x30; x30];
     HTTP_FILE_NOT_FOUND_ENCODED := [x34; x30; x34];
     INITIAL_SEQ_NO := 500;
     CONNECTION_ADR := Some (fun remote _ _ => VAdr remote) |}.

Definition sample_layout : Codec.Layout :=
  {| Codec.SEQ_WIDTH := 4;
     Codec.kind_tag := fun k =>
       match k with SYN => x01 | ACK => x02 | APP => x03 | FIN => x04 end |}.

Definition peer : Address := ("10.0.0.7"%string, 5000%Z).
Definition stranger : Address := ("10.0.0.9"%string, 5001%Z).
Definition home : Address := ("127.0.0.1"%string, 8080%Z).

Definition peer_connection : Connection.t :=
  Connection.mk (Some peer) 100 501.

Definition server_with (c : option Connection.t) : Server.t :=
  Server.mk home (Some 3) c.

Definition sample_file : bytes :=
  [x61; x62; x63; x64; x65; x66; x67; x68; x69; x6a; x6b].

Definition world_with (evs : list InEvent) : World :=
  {| inbox := evs; wire := []; journal := [];
     files := [("data.bin"%string, sample_file)];
     open_socks := [3]; bound := [(3, home)]; next_sock := 4;
     bind_refused := false |}.

Definition from_peer (k : PacketType) (seq ack : Z) (body : bytes) : Message.t :=
  Message.mk k seq ack body (Some peer).

(** The world after [_close_connection] heard the outcome [o] of the
    acknowledgment wait for its FIN. *)
Definition close_report (o : option Message.t) (w : World) : World :=
  match o with
  | None =>
      write_log WARNING No_ACK_for_FIN
        (write_log WARNING (Client_connectivity_lost Maximum_retries_exceeded) w)
  | Some r =>
      if Message.is_fin r then write_log INFO Received_FIN_ACK w
      else write_log WARNING FIN_ACK_not_FIN w
  end.

(** The FIN that [_close_connection] sends for a connection. *)
Definition fin_message (c : Connection.t) : Message.t :=
  create_fin_message (Connection.next_seq_no c) (Connection.last_index_received c).

(** The state in which [_process_get_request] enters its chunk loop. *)
Definition get_request_started (cfg : Config) (m : Message.t) (content : bytes)
    (c : Connection.t) (st : Server.St) : Server.St :=
  (with_conn (Some (Connection.increment_next_expected_index c)) (fst st),
   write_log INFO
     (Sending_data_in_chunks
        (List.length
           (_get_data_from_file content
              (MAX_PAYLOAD_SIZE cfg - HTTP_CODE_LEN cfg))))
     (write_log INFO (Received_request_for (Message.get_payload_as_text m))
        (snd st))).

(** [m] always comes back: it returns or raises. *)
Definition comes_back {A} (m : Server.Py A) : Prop :=
  forall st st', m st <> (Pending, st').

(** [m] keeps the invariant [Inv], however it ends. *)
Definition keeps (Inv : Server.St -> Prop) {A} (m : Server.Py A) : Prop :=
  forall st o st', Inv st -> m st = (o, st') -> Inv st'.


(** ... and the not-found status fits into a payload as well. *)
Definition constants_fit (cfg : Config) : Prop :=
  chunks_fit cfg /\
  (Z.of_nat (List.length (HTTP_FILE_NOT_FOUND_ENCODED cfg)) <= MAX_PAYLOAD_SIZE cfg)%Z.

(** The server's socket, its address, the sockets of the process and the
    file system are what they were in [(s0, w0)]. *)
Definition socket_untouched (s0 : Server.t) (w0 : World) (st : Server.St) : Prop :=
  Server.sock (fst st) = Server.sock s0 /\
  Server.adr (fst st) = Server.adr s0 /\
  open_socks (snd st) = open_socks w0 /\
  bound (snd st) = bound w0 /\
  next_sock (snd st) = next_sock w0 /\
  bind_refused (snd st) = bind_refused w0 /\
  files (snd st) = files w0.

(** What was sent since the wire was [sent_before] went out on [sock]
    to [dest]. *)
Definition replies_to (sent_before : list Datagram) (sock : option SockId)
    (dest : option Address) (st : Server.St) : Prop :=
  exists l,
    wire (snd st) = sent_before ++ l /\
    Forall (fun d => Some (dg_sock d) = sock /\ dg_dest d = dest) l.

(** How the foreign-address branch of [_dispatch] ends, the log about
    the dispatch being written: with the warning if [self.conn.adr] can
    be read, with an AttributeError if not. *)
Definition foreign_packet_result (cfg : Config) (m : Message.t) (s : Server.t)
    (w1 : World) : Outcome unit * Server.St :=
  match Server.conn s with
  | Some c =>
      match Connection.getattr cfg c "adr" with
      | Some v =>
          (Return tt,
           (s, write_log WARNING
                 (Existing_connection_dropping v (Message.src_adr m)) w1))
      | None => (Raise (AttributeError "adr"), (s, w1))
      end
  | None => (Raise (AttributeError "adr"), (s, w1))
  end.

(** The same constants, for a [Connection] class without [adr]. *)
Definition config_without_adr : Config :=
  {| DEFAULT_RETRY_THRESHOLD := 3;
     MAX_PAYLOAD_SIZE := 8;
     HTTP_CODE_LEN := 3;
     HTTP_OK_ENCODED := [x32; x30; x30];
     HTTP_FILE_NOT_FOUND_ENCODED := [x34; x30; x34];
     INITIAL_SEQ_NO := 500;
     CONNECTION_ADR := None |}.

(** The chunk sizes of a datagram transport: positive, and no larger
    than a datagram. *)
Definition datagram_sized (size : Z) : Prop := (0 < size <= 65535)%Z.


(** * Properties *)

Unset Implicit Arguments.

(** ** The message codec *)

Section CodecFacts.

Import Codec.

Lemma Z_of_byte_of_Z z : (0 <= z < 256)%Z -> Z_of_byte (byte_of_Z z) = z.
Proof.
  intros Hz. unfold Z_of_byte, byte_of_Z.
  destruct (Byte.of_N (Z.to_N z)) as [b|] eqn:E.
  - apply Byte.to_of_N in E. rewrite E. lia.
  - apply Byte.of_N_None_iff in E. lia.
Qed.

Lemma decode_uint_app bs b :
  decode_uint (bs ++ [b]) = (decode_uint bs * 256 + Z_of_byte b)%Z.
Proof. unfold decode_uint. rewrite fold_left_app. reflexivity. Qed.

Lemma encode_uint_length width n : List.length (encode_uint width n) = width.
Proof.
  revert n. induction width as [|k IH]; intros n; simpl; [reflexivity |].
  rewrite length_app, IH. simpl. lia.
Qed.

Lemma decode_encode_uint width n :
  (0 <= n < 256 ^ Z.of_nat width)%Z ->
  decode_uint (encode_uint width n) = n.
Proof.
  revert n. induction width as [|k IH]; intros n Hn.
  - simpl in *. unfold decode_uint. simpl. lia.
  - cbn [encode_uint]. rewrite decode_uint_app.
    rewrite Nat2Z.inj_succ, Z.pow_succ_r in Hn by lia.
    rewrite IH.
    + rewrite Z_of_byte_of_Z by (apply Z.mod_pos_bound; lia).
      pose proof (Z.div_mod n 256). lia.
    + split; [apply Z.div_pos; lia |].
      apply Z.div_lt_upper_bound; lia.
Qed.

Lemma firstn_app_exact {A} (a b : list A) n :
  List.length a = n -> firstn n (a ++ b) = a.
Proof.
  intros <-. rewrite firstn_app, Nat.sub_diag, firstn_O, app_nil_r.
  apply firstn_all.
Qed.

Lemma skipn_app_exact {A} (a b : list A) n :
  List.length a = n -> skipn n (a ++ b) = b.
Proof.
  intros <-. rewrite skipn_app, Nat.sub_diag, skipn_O, skipn_all.
  reflexivity.
Qed.

Lemma kind_of_tag_tag L k : tags_distinct L -> kind_of_tag L (kind_tag L k) = Some k.
Proof.
  intros Hd. unfold kind_of_tag.
  assert (Hneq : forall k', k' <> k -> Byte.eqb (kind_tag L k') (kind_tag L k) = false).
  { intros k' Hk. destruct (Byte.eqb _ _) eqn:E; [|reflexivity].
    apply Byte.byte_dec_bl in E. apply Hd in E. congruence. }
  assert (Heq : Byte.eqb (kind_tag L k) (kind_tag L k) = true)
    by (apply Byte.byte_dec_lb; reflexivity).
  destruct k; simpl;
    repeat first [ rewrite Heq; reflexivity
                 | rewrite Hneq by discriminate ].
Qed.

Lemma kind_of_tag_unknown L b :
  (forall k, kind_tag L k <> b) -> kind_of_tag L b = None.
Proof.
  intros Hb. unfold kind_of_tag. simpl.
  assert (H : forall k, Byte.eqb (kind_tag L k) b = false).
  { intros k. destruct (Byte.eqb _ _) eqn:E; [|reflexivity].
    apply Byte.byte_dec_bl in E. elim (Hb k E). }
  rewrite !H. reflexivity.
Qed.

End CodecFacts.

(** C3.  Under a layout whose kind tags are pairwise distinct: decoding
    the encoding of every valid message gives the message back; a buffer
    shorter than the header, and a buffer whose kind tag is not
    recognized, decode to the MalformedMessage error and to no message. *)
Theorem codec_round_trip_or_malformed (L : Codec.Layout) (max_payload : Z) :
  Codec.tags_distinct L ->
  (forall m, Codec.valid L max_payload m ->
     Codec.decode L (Codec.encode L m) (Message.src_adr m) = inr m) /\
  (forall data src, List.length data < Codec.header_length L ->
     Codec.decode L data src = inl Codec.MalformedMessage) /\
  (forall tag rest src, (forall k, Codec.kind_tag L k <> tag) ->
     Codec.decode L (tag :: rest) src = inl Codec.MalformedMessage).
Proof.
  intros Hd. split; [|split].
  - intros [kind seq ack body src] (Hseq & Hack & _). simpl in Hseq, Hack.
    unfold Codec.decode, Codec.encode. cbn [Message.packet_type Message.seq_no
      Message.ack_no Message.payload Message.src_adr].
    set (W := Codec.SEQ_WIDTH L).
    assert (Hlen : (List.length
              (Codec.kind_tag L kind :: Codec.encode_uint W seq ++
               Codec.encode_uint W ack ++ body) <? Codec.header_length L) = false).
    { apply Nat.ltb_ge. unfold Codec.header_length. fold W. simpl.
      rewrite !length_app, !encode_uint_length. lia. }
    rewrite Hlen, kind_of_tag_tag by assumption.
    rewrite (firstn_app_exact _ _ _ (encode_uint_length W seq)).
    rewrite (skipn_app_exact _ _ _ (encode_uint_length W seq)).
    rewrite (firstn_app_exact _ _ _ (encode_uint_length W ack)).
    rewrite (skipn_app_exact _ _ _ (encode_uint_length W ack)).
    unfold Codec.modulus in *. fold W in Hseq, Hack.
    rewrite !decode_encode_uint by assumption. reflexivity.
  - intros data src Hlen. unfold Codec.decode.
    apply Nat.ltb_lt in Hlen. rewrite Hlen. reflexivity.
  - intros tag rest src Htag. unfold Codec.decode.
    destruct (_ <? _); [reflexivity |].
    rewrite kind_of_tag_unknown by assumption. reflexivity.
Qed.

Lemma codec_round_trip_or_malformed_witness :
  Codec.decode sample_layout
    (Codec.encode sample_layout (from_peer APP 70000 500 [x61; x62]))
    (Some peer)
  = inr (from_peer APP 70000 500 [x61; x62])
  /\ Codec.decode sample_layout [x03; x00; x01] (Some peer)
     = inl Codec.MalformedMessage
  /\ Codec.decode sample_layout [x09; x00; x00; x00; x01; x00; x00; x00; x02]
       (Some peer)
     = inl Codec.MalformedMessage.
Proof.
  assert (Hd : Codec.tags_distinct sample_layout).
  { intros k1 k2. destruct k1, k2; simpl; intros H;
      first [reflexivity | discriminate H]. }
  destruct (codec_round_trip_or_malformed sample_layout 8 Hd) as (Hrt & Hshort & Htag).
  split; [|split].
  - apply (Hrt (from_peer APP 70000 500 [x61; x62])).
    repeat split; vm_compute; first [reflexivity | discriminate].
  - apply Hshort. vm_compute. lia.
  - apply Htag. intros k. destruct k; simpl; discriminate.
Defined.

(** ** Splitting a file into chunks *)

Section Chunking.

Variable n : Z.
Hypothesis n_pos : (0 < n)%Z.

Lemma file_read_app size rest chunk rest' :
  file_read size rest = (chunk, rest') -> chunk ++ rest' = rest.
Proof.
  unfold file_read. destruct (size <? 0)%Z; intros H; inversion H; subst.
  - apply app_nil_r.
  - apply firstn_skipn.
Qed.

Lemma file_read_nil rest rest' :
  file_read n rest = ([], rest') -> rest = [].
Proof.
  unfold file_read. destruct (Z.ltb_spec n 0) as [|_]; [lia |].
  intros H. inversion H as [[H1 H2]].
  destruct (Z.to_nat n) eqn:E; [lia |].
  destruct rest; [reflexivity | discriminate].
Qed.

Lemma file_read_length rest chunk rest' :
  file_read n rest = (chunk, rest') -> (Z.of_nat (List.length chunk) <= n)%Z.
Proof.
  unfold file_read. destruct (Z.ltb_spec n 0) as [|_]; [lia |].
  intros H. inversion H; subst.
  pose proof (firstn_le_length (Z.to_nat n) rest).
  rewrite length_firstn. lia.
Qed.

Lemma file_read_full rest chunk rest' :
  file_read n rest = (chunk, rest') -> rest' <> [] ->
  Z.of_nat (List.length chunk) = n.
Proof.
  unfold file_read. destruct (Z.ltb_spec n 0) as [|_]; [lia |].
  intros H Hne. inversion H; subst.
  rewrite length_firstn.
  destruct (Nat.le_gt_cases (List.length rest) (Z.to_nat n)) as [Hle|Hgt].
  - elim Hne. apply skipn_all2. exact Hle.
  - lia.
Qed.

Lemma read_chunks_concat rest : List.concat (read_chunks n rest) = rest.
Proof.
  funelim (read_chunks n rest).
  - symmetry. eapply file_read_nil; eassumption.
  - cbn [List.concat].
    match goal with IH : List.concat _ = _ |- _ => rewrite IH end.
    eapply file_read_app; eassumption.
Qed.

Lemma read_chunks_nonempty rest :
  Forall (fun c => c <> []) (read_chunks n rest).
Proof.
  funelim (read_chunks n rest); constructor.
  - discriminate.
  - match goal with IH : Forall _ _ |- _ => exact IH end.
Qed.

Lemma read_chunks_nil : read_chunks n [] = [].
Proof.
  pose proof (read_chunks_concat []) as Hc.
  pose proof (read_chunks_nonempty []) as Hn.
  destruct (read_chunks n []) as [|c cs]; [reflexivity |].
  inversion Hn as [|? ? Hne _]; subst.
  cbn [List.concat] in Hc. apply app_eq_nil in Hc. tauto.
Qed.

Lemma read_chunks_bound rest :
  Forall (fun c => (Z.of_nat (List.length c) <= n)%Z) (read_chunks n rest).
Proof.
  funelim (read_chunks n rest).
  - constructor.
  - constructor.
    + eapply file_read_length; eassumption.
    + match goal with IH : Forall _ _ |- _ => exact IH end.
Qed.

Lemma read_chunks_full rest :
  Forall (fun c => Z.of_nat (List.length c) = n) (removelast (read_chunks n rest)).
Proof.
  funelim (read_chunks n rest).
  - constructor.
  - cbn [removelast].
    destruct (read_chunks n rest') as [|c cs] eqn:E; [constructor |].
    constructor.
    + eapply file_read_full; [eassumption |].
      intros ->. rewrite read_chunks_nil in E. discriminate.
    + match goal with IH : Forall _ _ |- _ => exact IH end.
Qed.

Lemma get_data_concat content :
  List.concat (_get_data_from_file content n) = content.
Proof.
  unfold _get_data_from_file.
  pose proof (read_chunks_concat content) as H.
  destruct (read_chunks n content); [simpl in *; congruence | exact H].
Qed.

Lemma get_data_bound content :
  Forall (fun c => (Z.of_nat (List.length c) <= n)%Z) (_get_data_from_file content n).
Proof.
  unfold _get_data_from_file.
  pose proof (read_chunks_bound content) as H.
  destruct (read_chunks n content); [|exact H].
  constructor; [simpl; lia | constructor].
Qed.

Lemma get_data_full content :
  Forall (fun c => Z.of_nat (List.length c) = n)
    (removelast (_get_data_from_file content n)).
Proof.
  unfold _get_data_from_file.
  pose proof (read_chunks_full content) as H.
  destruct (read_chunks n content); [constructor | exact H].
Qed.

End Chunking.

(** ** The reliable-send primitive *)

Section ReliableSend.

Lemma recv_within_one_silent evs :
  silent_for 1 evs = true ->
  recv_within 1 evs = (TimedOut, skipn 1 evs).
Proof.
  destruct evs as [|[m| |] rest]; simpl; intros H;
    try discriminate; reflexivity.
Qed.

Lemma with_inbox_sent_times k evs fd adr m w :
  with_inbox evs (sent_times k fd adr m w)
  = sent_times k fd adr m (with_inbox evs w).
Proof. reflexivity. Qed.

Lemma send_attempts_silent k : forall m fd adr w,
  silent_for k (inbox w) = true ->
  send_attempts k m fd adr w
  = (Return None, with_inbox (skipn k (inbox w)) (sent_times k fd adr m w)).
Proof.
  induction k as [|k IH]; intros m fd adr w Hs.
  - cbn. unfold with_inbox, sent_times. destruct w; cbn.
    rewrite app_nil_r. reflexivity.
  - cbn [send_attempts].
    assert (H1 : silent_for 1 (inbox w) = true).
    { destruct (inbox w) as [|[| |] ?]; simpl in *; try discriminate; reflexivity. }
    change (inbox (transmit fd adr m w)) with (inbox w).
    rewrite (recv_within_one_silent _ H1).
    rewrite IH.
    + f_equal. unfold with_inbox, sent_times, transmit. cbn.
      rewrite <- app_assoc. cbn [app repeat].
      f_equal. destruct (inbox w) as [|e rest]; cbn; [|reflexivity].
      destruct k; reflexivity.
    + cbn. destruct (inbox w) as [|[| |] rest]; simpl in *;
        try discriminate; [destruct k; reflexivity | assumption].
Qed.

(** The primitive comes back or is interrupted; it raises nothing else. *)
Lemma send_attempts_outcome k : forall m fd adr w,
  (exists r, fst (send_attempts k m fd adr w) = Return r)
  \/ fst (send_attempts k m fd adr w) = Raise KeyboardInterrupt.
Proof.
  induction k as [|k IH]; intros m fd adr w.
  - left. exists None. reflexivity.
  - cbn [send_attempts].
    destruct (recv_within 1 (inbox (transmit fd adr m w))) as [[r| |] evs].
    + left. exists (Some r). reflexivity.
    + apply IH.
    + right. reflexivity.
Qed.

(** A response that comes back used up at least one event. *)
Lemma send_attempts_consumes k : forall m fd adr w r w',
  send_attempts k m fd adr w = (Return (Some r), w') ->
  List.length (inbox w') < List.length (inbox w).
Proof.
  induction k as [|k IH]; intros m fd adr w r w' H.
  - discriminate.
  - cbn [send_attempts] in H.
    change (inbox (transmit fd adr m w)) with (inbox w) in H.
    destruct (inbox w) as [|[m0| |] rest] eqn:E; cbn in H.
    + apply IH in H. cbn in H. lia.
    + inversion H; subst. cbn. lia.
    + apply IH in H. cbn in *. lia.
    + discriminate.
Qed.

End ReliableSend.

(** ** Equality of addresses *)

Lemma Address_eqb_eq (a b : Address) : Address_eqb a b = true <-> a = b.
Proof.
  destruct a as [ia pa], b as [ib pb]. unfold Address_eqb. cbn [fst snd].
  rewrite andb_true_iff, String.eqb_eq, Z.eqb_eq.
  split; [intros [-> ->]; reflexivity | intros H; inversion H; auto].
Qed.

Lemma adr_eqb_eq (a b : option Address) : adr_eqb a b = true <-> a = b.
Proof.
  destruct a as [a|], b as [b|]; cbn; try (split; congruence).
  rewrite Address_eqb_eq. split; congruence.
Qed.

Lemma adr_eqb_neq (a b : option Address) : adr_eqb a b = false <-> a <> b.
Proof.
  rewrite <- adr_eqb_eq. destruct (adr_eqb a b); split; congruence.
Qed.

(** ** Which exceptions a method can raise *)

Section Raises.

Import Server.

Variable P : Exn -> Prop.

Lemma raises_ret A (a : A) : raises_only P (ret a).
Proof. intros st e st' H. discriminate. Qed.

Lemma raises_raise A e : P e -> raises_only P (@raise A e).
Proof. intros He st e' st' H. inversion H; subst. exact He. Qed.

Lemma raises_bind A B (m : Py A) (k : A -> Py B) :
  raises_only P m -> (forall a, raises_only P (k a)) -> raises_only P (bind m k).
Proof.
  intros Hm Hk st e st' H. unfold bind in H.
  destruct (m st) as [[a|e0|] st0] eqn:E.
  - eapply Hk; eassumption.
  - inversion H; subst. eapply Hm; eassumption.
  - discriminate.
Qed.

Lemma raises_self : raises_only P self.
Proof. intros st e st' H. discriminate. Qed.

Lemma raises_world : raises_only P world.
Proof. intros st e st' H. discriminate. Qed.

Lemma raises_set_conn c : raises_only P (set_conn c).
Proof. intros st e st' H. discriminate. Qed.

Lemma raises_logging l t : raises_only P (logging l t).
Proof. intros st e st' H. discriminate. Qed.

Lemma raises_assert b site :
  (b = false -> P (AssertionError site)) -> raises_only P (assert b site).
Proof.
  intros Hb. unfold assert. destruct b; [apply raises_ret |].
  apply raises_raise. auto.
Qed.

Lemma raises_self_conn attr :
  P (AttributeError attr) -> raises_only P (self_conn attr).
Proof.
  intros Ha st e st' H. unfold self_conn, bind, self in H.
  destruct (conn (fst st)); cbn in H; inversion H; subst. exact Ha.
Qed.

Lemma raises_io A (f : IO A) :
  (forall w e w', f w = (Raise e, w') -> P e) -> raises_only P (io f).
Proof.
  intros Hf st e st' H. unfold io in H.
  destruct (f (snd st)) as [r w'] eqn:E. inversion H; subst.
  eapply Hf; eassumption.
Qed.

End Raises.

(** ** The methods, step by step *)

Section Methods.

Import Server.

Variable cfg : Config.

(** [Server._send_until_ack_in] on a connected server with a socket: the
    primitive runs, and only its "no acknowledgment" result abandons the
    connection. *)
Lemma send_until_ack_in_run msg s w fd c :
  sock s = Some fd -> conn s = Some c ->
  _send_until_ack_in cfg msg (s, w)
  = match send_attempts (DEFAULT_RETRY_THRESHOLD cfg) msg fd (Connection.remote_adr c) w with
    | (Return None, w') =>
        (Return None,
         (with_conn None s,
          write_log WARNING (Client_connectivity_lost Maximum_retries_exceeded) w'))
    | (Return (Some r), w') => (Return (Some r), (s, w'))
    | (Raise e, w') => (Raise e, (s, w'))
    | (Pending, w') => (Pending, (s, w'))
    end.
Proof.
  destruct s as [a sk cn]. cbn. intros -> ->.
  unfold _send_until_ack_in, bind, self, self_conn, io, send_until_ack_in. cbn.
  destruct (send_attempts (DEFAULT_RETRY_THRESHOLD cfg) msg fd (Connection.remote_adr c) w)
    as [[[r|]|e|] w']; reflexivity.
Qed.

Lemma send_until_ack_in_raises (P : Exn -> Prop) msg :
  P KeyboardInterrupt -> (forall a, P (AttributeError a)) ->
  raises_only P (_send_until_ack_in cfg msg).
Proof.
  intros Hk Ha. unfold _send_until_ack_in.
  apply raises_bind; [apply raises_self | intros s].
  apply raises_bind; [apply raises_self_conn, Ha | intros c].
  apply raises_bind.
  - apply raises_io. intros w e w' H. unfold send_until_ack_in in H.
    destruct (sock s) as [fd|].
    + destruct (send_attempts_outcome (DEFAULT_RETRY_THRESHOLD cfg) msg fd (Connection.remote_adr c) w)
        as [[r Hr]|Hr]; rewrite H in Hr; cbn in Hr; inversion Hr; subst; auto.
    + inversion H; subst. apply Ha.
  - intros ack. apply raises_bind; [|intros; apply raises_ret].
    destruct (is_none ack); [|apply raises_ret].
    unfold _abandon_connection.
    apply raises_bind; [apply raises_logging | intros; apply raises_set_conn].
Qed.

(** A response handed back by [_send_until_ack_in] used up an event and
    left the server object as it was. *)
Lemma send_until_ack_in_response msg st r st' :
  _send_until_ack_in cfg msg st = (Return (Some r), st') ->
  fst st' = fst st /\
  List.length (inbox (snd st')) < List.length (inbox (snd st)).
Proof.
  destruct st as [[a sk cn] w].
  unfold _send_until_ack_in, bind, self, self_conn, io, send_until_ack_in. cbn.
  destruct cn as [c|]; cbn; [|discriminate].
  destruct sk as [fd|]; cbn; [|discriminate].
  destruct (send_attempts (DEFAULT_RETRY_THRESHOLD cfg) msg fd (Connection.remote_adr c) w)
    as [[[r0|]|e|] w'] eqn:E; cbn; intros H; inversion H; subst.
  split; [reflexivity |]. cbn. eapply send_attempts_consumes; eassumption.
Qed.

(** The primitive only adds copies of the message to the wire. *)
Lemma send_attempts_wire k : forall m fd adr w o w',
  send_attempts k m fd adr w = (o, w') ->
  exists j, w' = with_inbox (inbox w') (sent_times j fd adr m w).
Proof.
  induction k as [|k IH]; intros m fd adr w o w' H.
  - inversion H; subst. exists 0. destruct w'; cbn.
    unfold with_inbox, sent_times. cbn. rewrite app_nil_r. reflexivity.
  - cbn [send_attempts] in H.
    assert (Hone : forall evs,
      with_inbox evs (transmit fd adr m w) = with_inbox evs (sent_times 1 fd adr m w))
      by reflexivity.
    destruct (recv_within 1 (inbox (transmit fd adr m w))) as [[r| |] evs].
    + inversion H; subst. exists 1. reflexivity.
    + apply IH in H. destruct H as [j Hj]. exists (S j).
      rewrite Hj at 1. unfold with_inbox, sent_times, transmit. cbn.
      rewrite <- app_assoc. reflexivity.
    + inversion H; subst. exists 1. reflexivity.
Qed.

Lemma sent_of_kind_sent_times kind j fd adr m evs w :
  PacketType_eqb (Message.packet_type m) kind = false ->
  sent_of_kind kind (with_inbox evs (sent_times j fd adr m w)) = sent_of_kind kind w.
Proof.
  intros Hk. unfold sent_of_kind. cbn. rewrite filter_app.
  assert (E : forall j, filter
    (fun d => PacketType_eqb (Message.packet_type (dg_msg d)) kind)
    (repeat {| dg_sock := fd; dg_dest := adr; dg_msg := m |} j) = []).
  { intros j'. induction j' as [|j' IH]; cbn; [reflexivity |]. rewrite Hk. exact IH. }
  rewrite E. apply app_nil_r.
Qed.

Lemma sent_of_kind_write_log kind l t w :
  sent_of_kind kind (write_log l t w) = sent_of_kind kind w.
Proof. reflexivity. Qed.

(** Sending a message of another kind leaves the messages of a kind on
    the wire as they were, however the send ends. *)
Lemma send_until_ack_in_kind kind msg st o st' :
  PacketType_eqb (Message.packet_type msg) kind = false ->
  _send_until_ack_in cfg msg st = (o, st') ->
  sent_of_kind kind (snd st') = sent_of_kind kind (snd st).
Proof.
  intros Hk. destruct st as [[a sk cn] w].
  unfold _send_until_ack_in, bind, self, self_conn, io, send_until_ack_in. cbn.
  destruct cn as [c|]; cbn; [|intros H; inversion H; reflexivity].
  destruct sk as [fd|]; cbn; [|intros H; inversion H; reflexivity].
  destruct (send_attempts (DEFAULT_RETRY_THRESHOLD cfg) msg fd
              (Connection.remote_adr c) w) as [r w'] eqn:E.
  apply send_attempts_wire in E. destruct E as [j Hj].
  destruct r as [[r|]|e|]; cbn; intros H; inversion H; subst; cbn;
    rewrite ?sent_of_kind_write_log; rewrite Hj;
    apply sent_of_kind_sent_times; assumption.
Qed.

(** [_send_data]: the size assertion, then the connection's send counter
    advances and the APP message goes to the primitive. *)
Lemma send_data_cases data s w :
  _send_data cfg data (s, w)
  = if (Z.of_nat (List.length data) <=? MAX_PAYLOAD_SIZE cfg)%Z then
      match conn s with
      | Some c =>
          _send_until_ack_in cfg
            (create_app_message (Connection.next_seq_no c)
               (Connection.last_index_received c) data)
            (with_conn (Some (snd (Connection.get_seq_and_increment c))) s, w)
      | None => (Raise (AttributeError "last_index_received"), (s, w))
      end
    else (Raise (AssertionError Data_chunk_too_large), (s, w)).
Proof.
  destruct s as [a sk cn].
  unfold _send_data, bind, assert.
  destruct (_ <=? _)%Z; [|reflexivity].
  destruct cn as [c|]; reflexivity.
Qed.

Lemma send_data_run data s w c :
  conn s = Some c ->
  (Z.of_nat (List.length data) <= MAX_PAYLOAD_SIZE cfg)%Z ->
  _send_data cfg data (s, w)
  = _send_until_ack_in cfg
      (create_app_message (Connection.next_seq_no c)
         (Connection.last_index_received c) data)
      (with_conn (Some (snd (Connection.get_seq_and_increment c))) s, w).
Proof.
  intros Hc Hlen. apply Z.leb_le in Hlen.
  rewrite send_data_cases, Hlen, Hc. reflexivity.
Qed.

Lemma send_data_kind kind data st o st' :
  PacketType_eqb APP kind = false ->
  _send_data cfg data st = (o, st') ->
  sent_of_kind kind (snd st') = sent_of_kind kind (snd st).
Proof.
  intros Hk. destruct st as [s w]. rewrite send_data_cases.
  destruct (_ <=? _)%Z; [|intros H; inversion H; reflexivity].
  destruct (conn s) as [c|]; [|intros H; inversion H; reflexivity].
  intros H. eapply send_until_ack_in_kind in H; [exact H | exact Hk].
Qed.

(** An acknowledged [_send_data] leaves the server connected. *)
Lemma send_data_acked data st r st' :
  _send_data cfg data st = (Return (Some r), st') ->
  conn (fst st') <> None /\ sock (fst st') = sock (fst st).
Proof.
  destruct st as [s w]. rewrite send_data_cases.
  destruct (_ <=? _)%Z; [|discriminate].
  destruct (conn s) as [c|]; [|discriminate].
  intros H. apply send_until_ack_in_response in H. destruct H as [H _].
  rewrite H. destruct s; cbn. split; [discriminate | reflexivity].
Qed.

(** [_send_data] when nothing comes back within the retry budget. *)
Lemma send_data_lost data s w fd c :
  sock s = Some fd -> conn s = Some c ->
  (Z.of_nat (List.length data) <= MAX_PAYLOAD_SIZE cfg)%Z ->
  silent_for (DEFAULT_RETRY_THRESHOLD cfg) (inbox w) = true ->
  _send_data cfg data (s, w)
  = (Return None,
     (with_conn None s,
      write_log WARNING (Client_connectivity_lost Maximum_retries_exceeded)
        (with_inbox (skipn (DEFAULT_RETRY_THRESHOLD cfg) (inbox w))
           (sent_times (DEFAULT_RETRY_THRESHOLD cfg) fd (Connection.remote_adr c)
              (create_app_message (Connection.next_seq_no c)
                 (Connection.last_index_received c) data) w)))).
Proof.
  intros Hs Hc Hlen Hq.
  rewrite (send_data_run _ _ w _ Hc Hlen).
  erewrite send_until_ack_in_run;
    [| destruct s; cbn in *; eassumption | destruct s; reflexivity].
  cbn [Connection.get_seq_and_increment snd Connection.remote_adr].
  rewrite send_attempts_silent by assumption.
  destruct s; reflexivity.
Qed.
(** The chunk loop runs the chunks of a prefix first. *)
Lemma send_chunks_app pre : forall rest st,
  send_chunks cfg (pre ++ rest) st
  = match send_chunks cfg pre st with
    | (Return true, st2) => send_chunks cfg rest st2
    | other => other
    end.
Proof.
  induction pre as [|chunk pre IH]; intros rest st; [reflexivity |].
  cbn [send_chunks app]. unfold bind.
  destruct (_send_data cfg (HTTP_OK_ENCODED cfg ++ chunk) st) as [[[r|]|e|] st1];
    cbn; try reflexivity.
  apply IH.
Qed.

Lemma send_chunks_kind kind chunks : forall st o st',
  PacketType_eqb APP kind = false ->
  send_chunks cfg chunks st = (o, st') ->
  sent_of_kind kind (snd st') = sent_of_kind kind (snd st).
Proof.
  induction chunks as [|chunk chunks IH]; intros st o st' Hk H.
  - inversion H; reflexivity.
  - cbn [send_chunks] in H. unfold bind in H.
    destruct (_send_data cfg (HTTP_OK_ENCODED cfg ++ chunk) st)
      as [r st1] eqn:E.
    apply (send_data_kind kind) in E; [|exact Hk].
    destruct r as [[r|]|e|]; cbn in H.
    + apply IH in H; [|exact Hk]. congruence.
    + inversion H; subst. exact E.
    + inversion H; subst. exact E.
    + inversion H; subst. exact E.
Qed.

(** When every chunk was acknowledged the server is still connected, on
    the same socket. *)
Lemma send_chunks_acked chunks : forall st st',
  send_chunks cfg chunks st = (Return true, st') ->
  conn (fst st) <> None ->
  conn (fst st') <> None /\ sock (fst st') = sock (fst st).
Proof.
  induction chunks as [|chunk chunks IH]; intros st st' H Hc.
  - inversion H; subst. auto.
  - cbn [send_chunks] in H. unfold bind in H.
    destruct (_send_data cfg (HTTP_OK_ENCODED cfg ++ chunk) st)
      as [[[r|]|e|] st1] eqn:E; cbn in H; try discriminate.
    apply send_data_acked in E. destruct E as [E1 E2].
    apply IH in H; [|exact E1]. destruct H as [H1 H2].
    split; [exact H1 | congruence].
Qed.

(** [_process_get_request] for an existing file, on a connected server:
    the chunks of the file are sent, and the connection is closed only
    when the loop ran to its end. *)
Lemma process_get_request_file m s w c content :
  conn s = Some c ->
  lookup_file (Message.get_payload_as_text m) (files w) = Some content ->
  _process_get_request cfg m (s, w)
  = match
      send_chunks cfg
        (_get_data_from_file content (MAX_PAYLOAD_SIZE cfg - HTTP_CODE_LEN cfg))
        (get_request_started cfg m content c (s, w))
    with
    | (Return true, st') => _close_connection cfg st'
    | (Return false, st') => (Return tt, st')
    | (Raise e, st') => (Raise e, st')
    | (Pending, st') => (Pending, st')
    end.
Proof.
  destruct s as [a sk cn]. cbn [conn]. intros -> Hf.
  unfold _process_get_request, bind, self, assert, self_conn, world,
    get_data_from, os_path_isfile, get_request_started. cbn.
  rewrite Hf. cbn. unfold bind. cbn. rewrite Hf. cbn.
  unfold with_conn. cbn.
  match goal with |- context [send_chunks cfg ?l ?st] =>
    destruct (send_chunks cfg l st) as [[[|]|e|] st'] end; reflexivity.
Qed.

(** [_close_connection] on a connected server. *)
Lemma close_connection_run s w c :
  conn s = Some c ->
  _close_connection cfg (s, w)
  = match
      _send_until_ack_in cfg
        (create_fin_message (Connection.next_seq_no c)
           (Connection.last_index_received c))
        (with_conn (Some (snd (Connection.get_seq_and_increment c))) s,
         write_log INFO Closing_connection w)
    with
    | (Return None, (s', w')) =>
        (Return tt, (with_conn None s', write_log WARNING No_ACK_for_FIN w'))
    | (Return (Some r), (s', w')) =>
        (Return tt,
         (with_conn None s',
          if Message.is_fin r then write_log INFO Received_FIN_ACK w'
          else write_log WARNING FIN_ACK_not_FIN w'))
    | (Raise e, st') => (Raise e, st')
    | (Pending, st') => (Pending, st')
    end.
Proof.
  destruct s as [a sk cn]. cbn [conn]. intros ->.
  unfold _close_connection, with_conn. unfold bind at 1. unfold self at 1.
  cbn [fst conn]. unfold bind at 1. unfold logging at 1.
  cbn [Connection.get_seq_and_increment fst snd adr sock].
  unfold bind at 1. unfold set_conn at 1.
  cbn [fst snd adr sock Connection.last_index_received].
  unfold bind at 1.
  match goal with |- context [_send_until_ack_in cfg ?m ?st] =>
    destruct (_send_until_ack_in cfg m st) as [[[r|]|e|] [s' w']] end;
    try reflexivity.
  unfold bind. destruct (Message.is_fin r); reflexivity.
Qed.
#[local] Arguments _send_until_ack_in : simpl never.
#[local] Arguments _send_data : simpl never.
#[local] Arguments send_chunks : simpl never.
#[local] Arguments _close_connection : simpl never.
#[local] Arguments _process_get_request : simpl never.

(** [_receive_connection]: its two assertions, then the new connection
    and the reply. *)
Lemma receive_connection_cases m s w :
  _receive_connection cfg m (s, w)
  = if Message.is_syn m then
      if foreign_address s m then
        (Raise (AssertionError Same_remote_address), (s, w))
      else _send_until_ack_in cfg (syn_reply cfg m) (syn_accepted cfg m (s, w))
    else (Raise (AssertionError Requires_SYN_packet), (s, w)).
Proof.
  destruct s as [a sk cn].
  unfold _receive_connection, foreign_address, syn_accepted, syn_greeting,
    syn_reply, syn_connection, with_conn, bind, assert.
  destruct (Message.is_syn m); [|reflexivity].
  destruct cn as [c|]; cbn.
  - destruct (adr_eqb (Connection.remote_adr c) (Message.src_adr m));
      [|reflexivity].
    cbn.
    match goal with |- context [_send_until_ack_in cfg ?x ?st] =>
      destruct (_send_until_ack_in cfg x st) as [[r|e|] st'] end; reflexivity.
  - match goal with |- context [_send_until_ack_in cfg ?x ?st] =>
      destruct (_send_until_ack_in cfg x st) as [[r|e|] st'] end; reflexivity.
Qed.

Lemma receive_connection_response m st r st' :
  _receive_connection cfg m st = (Return (Some r), st') ->
  fst st' = with_conn (Some (syn_connection cfg m)) (fst st) /\
  List.length (inbox (snd st')) < List.length (inbox (snd st)).
Proof.
  destruct st as [s w]. rewrite receive_connection_cases.
  destruct (Message.is_syn m); [|discriminate].
  destruct (foreign_address s m); [discriminate |].
  intros H. apply send_until_ack_in_response in H. exact H.
Qed.

(** One level of [_dispatch]. *)
Lemma dispatch_rec_step d m s w :
  dispatch_rec cfg (S d) m (s, w)
  = let w1 := write_log DEBUG Dispatching_message w in
    if foreign_address s m then foreign_packet_result cfg m s w1
    else if Message.is_syn m then
      match _receive_connection cfg m (s, w1) with
      | (Return (Some a), st') =>
          if Message.is_ack_only a then (Return tt, st')
          else dispatch_rec cfg d a st'
      | (Return None, st') => (Return tt, st')
      | (Raise e, st') => (Raise e, st')
      | (Pending, st') => (Pending, st')
      end
    else
      match conn s with
      | None => (Return tt, (s, write_log WARNING Non_SYN_without_connection w1))
      | Some c =>
          if (Message.seq_no m =? Connection.next_expected_index c)%Z then
            if PacketType_eqb (Message.packet_type m) APP then
              _process_get_request cfg m (s, w1)
            else (Return tt, (s, write_log WARNING Failed_to_dispatch w1))
          else
            (Return tt,
             (with_conn None s,
              write_log WARNING
                (Client_connectivity_lost
                   (Bad_sequence_number (Message.seq_no m)
                      (Connection.last_index_received c + 1)%Z)) w1))
      end.
Proof.
  destruct s as [a sk cn].
  cbn [dispatch_rec]. unfold bind at 1. unfold logging at 1.
  cbn [fst snd]. unfold bind at 1. unfold self at 1. cbn [fst snd].
  cbv zeta.
  destruct (foreign_address _ m) eqn:Ef.
  - unfold foreign_address in Ef. cbn [conn] in Ef.
    destruct cn as [c|]; [|discriminate].
    unfold foreign_packet_result, self_conn, bind, self. cbn [fst snd conn ret].
    destruct (Connection.getattr cfg c "adr"); reflexivity.
  - destruct (Message.is_syn m).
    + unfold bind.
      destruct (_receive_connection cfg m _) as [[[r|]|e|] st']; try reflexivity.
      destruct (Message.is_ack_only r); reflexivity.
    + cbn [conn]. destruct cn as [c|]; [|reflexivity].
      cbn [is_none]. unfold bind at 1. unfold self_conn, bind, self. cbn.
      destruct (Message.seq_no m =? Connection.next_expected_index c)%Z;
        [|reflexivity].
      cbn. destruct (PacketType_eqb (Message.packet_type m) APP); reflexivity.
Qed.

(** The foreign-address branch ends in one of two ways, and changes
    nothing but the log. *)
Lemma foreign_packet_result_cases m s w1 :
  (exists v,
     foreign_packet_result cfg m s w1
     = (Return tt,
        (s, write_log WARNING
              (Existing_connection_dropping v (Message.src_adr m)) w1)))
  \/ foreign_packet_result cfg m s w1 = (Raise (AttributeError "adr"), (s, w1)).
Proof.
  unfold foreign_packet_result.
  destruct (conn s) as [c|]; [|right; reflexivity].
  destruct (Connection.getattr cfg c "adr") as [v|];
    [left; exists v; reflexivity | right; reflexivity].
Qed.

(** Beyond the number of events still to come, more depth changes
    nothing. *)
Lemma dispatch_rec_depth d1 : forall d2 m st,
  List.length (inbox (snd st)) < d1 ->
  List.length (inbox (snd st)) < d2 ->
  dispatch_rec cfg d1 m st = dispatch_rec cfg d2 m st.
Proof.
  induction d1 as [|d1 IH]; intros d2 m [s w] H1 H2; [lia |].
  destruct d2 as [|d2]; [lia |].
  rewrite !dispatch_rec_step. cbv zeta.
  destruct (foreign_address s m); [reflexivity |].
  destruct (Message.is_syn m); [|reflexivity].
  destruct (_receive_connection cfg m _) as [[[r|]|e|] st'] eqn:E; try reflexivity.
  destruct (Message.is_ack_only r); [reflexivity |].
  apply receive_connection_response in E. destruct E as [_ E]. cbn in E, H1, H2.
  apply IH; lia.
Qed.

Lemma dispatch_depth d m st :
  List.length (inbox (snd st)) < d ->
  _dispatch cfg m st = dispatch_rec cfg d m st.
Proof.
  intros H. unfold _dispatch. apply dispatch_rec_depth; lia.
Qed.

(** [_dispatch] always comes to an end of its recursion. *)
Lemma dispatch_step m s w :
  _dispatch cfg m (s, w)
  = let w1 := write_log DEBUG Dispatching_message w in
    if foreign_address s m then foreign_packet_result cfg m s w1
    else if Message.is_syn m then
      match _receive_connection cfg m (s, w1) with
      | (Return (Some a), st') =>
          if Message.is_ack_only a then (Return tt, st')
          else _dispatch cfg a st'
      | (Return None, st') => (Return tt, st')
      | (Raise e, st') => (Raise e, st')
      | (Pending, st') => (Pending, st')
      end
    else
      match conn s with
      | None => (Return tt, (s, write_log WARNING Non_SYN_without_connection w1))
      | Some c =>
          if (Message.seq_no m =? Connection.next_expected_index c)%Z then
            if PacketType_eqb (Message.packet_type m) APP then
              _process_get_request cfg m (s, w1)
            else (Return tt, (s, write_log WARNING Failed_to_dispatch w1))
          else
            (Return tt,
             (with_conn None s,
              write_log WARNING
                (Client_connectivity_lost
                   (Bad_sequence_number (Message.seq_no m)
                      (Connection.last_index_received c + 1)%Z)) w1))
      end.
Proof.
  unfold _dispatch at 1. rewrite dispatch_rec_step. cbv zeta.
  destruct (foreign_address s m); [reflexivity |].
  destruct (Message.is_syn m); [|reflexivity].
  destruct (_receive_connection cfg m _) as [[[r|]|e|] st'] eqn:E; try reflexivity.
  destruct (Message.is_ack_only r); [reflexivity |].
  apply receive_connection_response in E. destruct E as [_ E]. cbn in E.
  symmetry. apply dispatch_depth. cbn [snd]. lia.
Qed.
End Methods.

(** ** The handlers always come back *)

Section ComesBack.

Import Server.

Variable cfg : Config.

Lemma back_ret A (a : A) : comes_back (ret a).
Proof. intros st st' H. discriminate. Qed.

Lemma back_raise A e : comes_back (@raise A e).
Proof. intros st st' H. discriminate. Qed.

Lemma back_bind A B (m : Py A) (k : A -> Py B) :
  comes_back m -> (forall a, comes_back (k a)) -> comes_back (bind m k).
Proof.
  intros Hm Hk st st' H. unfold bind in H.
  destruct (m st) as [[a|e|] st0] eqn:E.
  - eapply Hk; eassumption.
  - discriminate.
  - eapply Hm; eassumption.
Qed.

Lemma back_logging l t : comes_back (logging l t).
Proof. intros st st' H. discriminate. Qed.

Lemma back_set_conn c : comes_back (set_conn c).
Proof. intros st st' H. discriminate. Qed.

Lemma back_self : comes_back self.
Proof. intros st st' H. discriminate. Qed.

Lemma back_world : comes_back world.
Proof. intros st st' H. discriminate. Qed.

Lemma back_assert b site : comes_back (assert b site).
Proof. destruct b; [apply back_ret | apply back_raise]. Qed.

Lemma back_self_conn attr : comes_back (self_conn attr).
Proof.
  unfold self_conn. apply back_bind; [apply back_self | intros s].
  destruct (conn s); [apply back_ret | apply back_raise].
Qed.

Ltac back :=
  repeat first
    [ apply back_ret | apply back_raise | apply back_logging
    | apply back_set_conn | apply back_self | apply back_world
    | apply back_assert | apply back_self_conn
    | apply back_bind; [| intros ?]
    | match goal with
      | |- comes_back (match ?x with _ => _ end) => destruct x
      end ].

Lemma send_until_ack_in_back msg : comes_back (_send_until_ack_in cfg msg).
Proof.
  unfold _send_until_ack_in.
  apply back_bind; [apply back_self | intros s].
  apply back_bind; [apply back_self_conn | intros c].
  apply back_bind; [| intros ack; unfold _abandon_connection; back].
  intros st st' H. unfold io, send_until_ack_in in H.
  destruct (sock s) as [fd|]; [|discriminate].
  destruct (send_attempts _ msg fd (Connection.remote_adr c) (snd st))
    as [o w'] eqn:E.
  destruct (send_attempts_outcome (DEFAULT_RETRY_THRESHOLD cfg) msg fd
              (Connection.remote_adr c) (snd st)) as [[r Hr]|Hr];
    rewrite E in Hr; cbn in Hr; subst o; discriminate.
Qed.

Lemma send_data_back data : comes_back (_send_data cfg data).
Proof.
  unfold _send_data.
  apply back_bind; [apply back_assert | intros _].
  apply back_bind; [apply back_self_conn | intros c].
  cbn [Connection.get_seq_and_increment].
  apply back_bind; [apply back_set_conn | intros _].
  apply send_until_ack_in_back.
Qed.

Lemma send_chunks_back chunks : comes_back (send_chunks cfg chunks).
Proof.
  induction chunks as [|chunk chunks IH]; cbn [send_chunks].
  - apply back_ret.
  - apply back_bind; [apply send_data_back | intros ack].
    destruct (is_none ack); [apply back_ret | exact IH].
Qed.

Lemma close_connection_back : comes_back (_close_connection cfg).
Proof.
  unfold _close_connection.
  apply back_bind; [apply back_self | intros s].
  destruct (conn s) as [c|]; [|apply back_logging].
  apply back_bind; [apply back_logging | intros _].
  cbn [Connection.get_seq_and_increment].
  apply back_bind; [apply back_set_conn | intros _].
  apply back_bind; [apply send_until_ack_in_back | intros o].
  apply back_bind; [| intros _; apply back_set_conn].
  destruct o as [r|]; [|apply back_logging].
  destruct (negb (Message.is_fin r)); apply back_logging.
Qed.

Lemma process_get_request_back m : comes_back (_process_get_request cfg m).
Proof.
  unfold _process_get_request.
  apply back_bind; [apply back_self | intros s].
  apply back_bind; [apply back_assert | intros _].
  apply back_bind; [apply back_logging | intros _].
  apply back_bind; [apply back_self_conn | intros c].
  apply back_bind; [apply back_set_conn | intros _].
  apply back_bind; [apply back_world | intros w].
  apply back_bind.
  - destruct (negb (os_path_isfile _ w)).
    + apply back_bind; [apply back_logging | intros _].
      apply back_bind; [apply send_data_back | intros ack; apply back_ret].
    + apply back_bind.
      * unfold get_data_from.
        apply back_bind; [apply back_world | intros w0].
        destruct (lookup_file _ _); [apply back_ret | apply back_raise].
      * intros chunks.
        apply back_bind; [apply back_logging | intros _].
        apply send_chunks_back.
  - intros [|]; [apply close_connection_back | apply back_ret].
Qed.

Lemma dispatch_rec_back d : forall m st,
  List.length (inbox (snd st)) < d ->
  forall st', dispatch_rec cfg d m st <> (Pending, st').
Proof.
  induction d as [|d IH]; intros m [s w] Hd st' H; [lia |].
  rewrite dispatch_rec_step in H. cbv zeta in H.
  destruct (foreign_address s m) eqn:Ef.
  { destruct (foreign_packet_result_cases cfg m s
                (write_log DEBUG Dispatching_message w)) as [[v Hv]|Hv];
      rewrite Hv in H; discriminate. }
  destruct (Message.is_syn m) eqn:Es.
  - destruct (_receive_connection cfg m _) as [[[r|]|e|] st0] eqn:E;
      try discriminate.
    + destruct (Message.is_ack_only r); [discriminate |].
      apply receive_connection_response in E. destruct E as [_ E].
      cbn in E, Hd. eapply IH; [|exact H]. lia.
    + rewrite receive_connection_cases, Es, Ef in E.
      eapply send_until_ack_in_back. exact E.
  - destruct (conn s) as [c|]; [|discriminate].
    destruct (_ =? _)%Z; [|discriminate].
    destruct (PacketType_eqb _ APP); [|discriminate].
    eapply process_get_request_back. exact H.
Qed.

(** [_dispatch] comes back on every message, in every state. *)
Lemma dispatch_back m : comes_back (_dispatch cfg m).
Proof.
  intros st st'. unfold _dispatch. apply dispatch_rec_back. lia.
Qed.

End ComesBack.

(** ** A packet from a foreign address *)



(** On a [Connection] without the attribute [adr] the same message ends
    [_dispatch] with an AttributeError instead; the server object and the
    connection are unchanged there too. *)
Lemma foreign_packet_without_adr cfg m s w c :
  Server.conn s = Some c ->
  Connection.remote_adr c <> Message.src_adr m ->
  Connection.getattr cfg c "adr" = None ->
  Server._dispatch cfg m (s, w)
  = (Raise (AttributeError "adr"), (s, write_log DEBUG Dispatching_message w)).
Proof.
  intros Hc Hne Hadr.
  rewrite dispatch_step. cbv zeta.
  unfold Server.foreign_address. rewrite Hc.
  apply adr_eqb_neq in Hne. rewrite Hne. cbn [negb].
  unfold foreign_packet_result. rewrite Hc, Hadr. reflexivity.
Qed.

Example foreign_packet_without_adr_run :
  fst (Server._dispatch config_without_adr
         (Message.mk APP 101 500 [] (Some stranger))
         (server_with (Some peer_connection), world_with []))
  = Raise (AttributeError "adr").
Proof. reflexivity. Qed.

(** ** Exhausted retries *)

(** C4.  When nothing arrives during [DEFAULT_RETRY_THRESHOLD] attempts,
    the reliable-send primitive has transmitted the message that many
    times and returns "no acknowledgment" ([None]) without raising, and
    the server's wrapper then abandons the connection and returns [None]
    as well. *)
Theorem no_acknowledgment_abandons cfg msg s w fd c :
  Server.sock s = Some fd ->
  Server.conn s = Some c ->
  silent_for (DEFAULT_RETRY_THRESHOLD cfg) (inbox w) = true ->
  let w' :=
    with_inbox (skipn (DEFAULT_RETRY_THRESHOLD cfg) (inbox w))
      (sent_times (DEFAULT_RETRY_THRESHOLD cfg) fd (Connection.remote_adr c) msg w) in
  send_until_ack_in cfg msg (Server.sock s) (Connection.remote_adr c) w
  = (Return None, w')
  /\ Server._send_until_ack_in cfg msg (s, w)
     = (Return None,
        (with_conn None s,
         write_log WARNING (Client_connectivity_lost Maximum_retries_exceeded) w')).
Proof.
  intros Hs Hc Hq w'. split.
  - rewrite Hs. unfold send_until_ack_in. apply send_attempts_silent. exact Hq.
  - rewrite (send_until_ack_in_run cfg msg s w fd c Hs Hc).
    rewrite send_attempts_silent by exact Hq. reflexivity.
Qed.

Lemma no_acknowledgment_abandons_witness :
  Server.conn
    (fst (snd (Server._send_until_ack_in sample_config (create_fin_message 501 100)
                 (server_with (Some peer_connection),
                  world_with [Silence; Silence; Silence;
                              Arrive (from_peer FIN 101 501 [])]))))
  = None.
Proof.
  rewrite (proj2 (no_acknowledgment_abandons sample_config
                    (create_fin_message 501 100)
                    (server_with (Some peer_connection))
                    (world_with [Silence; Silence; Silence;
                                 Arrive (from_peer FIN 101 501 [])])
                    3 peer_connection eq_refl eq_refl eq_refl)).
  reflexivity.
Defined.

(** ** A connection request *)

(** C5.  A SYN that passes the address check (no connection, or one with
    the same peer) makes the server hold a new connection, built from the
    SYN alone, whose [last_index_received] is the SYN's sequence number;
    the SYN reply goes through the reliable-send primitive to the peer;
    a response that is not acknowledgment-only is dispatched in turn, an
    acknowledgment-only response is not, and without a response the
    connection is abandoned. *)
Theorem syn_creates_connection cfg m s w fd :
  Message.is_syn m = true ->
  (Server.conn s = None \/
   exists c, Server.conn s = Some c /\ Connection.remote_adr c = Message.src_adr m) ->
  Server.sock s = Some fd ->
  let c1 := syn_connection cfg m in
  let s1 := with_conn (Some c1) s in
  let w1 := snd (syn_accepted cfg m (s, write_log DEBUG Dispatching_message w)) in
  Connection.last_index_received c1 = Message.seq_no m
  /\ Connection.remote_adr c1 = Message.src_adr m
  /\ Server._dispatch cfg m (s, w)
     = match
         send_until_ack_in cfg (syn_reply cfg m) (Server.sock s)
           (Message.src_adr m) w1
       with
       | (Return (Some r), w2) =>
           if Message.is_ack_only r then (Return tt, (s1, w2))
           else Server._dispatch cfg r (s1, w2)
       | (Return None, w2) =>
           (Return tt,
            (with_conn None s,
             write_log WARNING
               (Client_connectivity_lost Maximum_retries_exceeded) w2))
       | (Raise e, w2) => (Raise e, (s1, w2))
       | (Pending, w2) => (Pending, (s1, w2))
       end.
Proof.
  intros Hsyn Hadr Hs c1 s1 w1.
  assert (Hf : Server.foreign_address s m = false).
  { unfold Server.foreign_address.
    destruct Hadr as [-> | (c & -> & Hc)]; [reflexivity |].
    apply adr_eqb_eq in Hc. rewrite Hc. reflexivity. }
  split; [reflexivity | split; [reflexivity |]].
  rewrite dispatch_step. cbv zeta. rewrite Hf, Hsyn.
  rewrite receive_connection_cases, Hsyn, Hf.
  unfold syn_accepted. cbn [fst snd].
  rewrite (send_until_ack_in_run cfg _ _ _ fd c1);
    [| destruct s; exact Hs | destruct s; reflexivity].
  subst w1. unfold syn_accepted. cbn [fst snd Connection.remote_adr c1 syn_connection].
  fold s1. rewrite Hs. unfold send_until_ack_in.
  destruct (send_attempts _ _ _ _ _) as [[[r|]|e|] w2]; reflexivity.
Qed.

Lemma syn_creates_connection_witness :
  Server._dispatch sample_config (from_peer SYN 100 0 [])
    (server_with None, world_with [Arrive (from_peer ACK 101 500 [])])
  = (Return tt,
     (server_with (Some (Connection.mk (Some peer) 100 501)),
      with_inbox []
        (sent_times 1 3 (Some peer) (create_syn_message 500 100)
           (write_log INFO (Using_base_sequence_number 500)
              (write_log INFO (Connection_request_from (Some peer))
                 (write_log DEBUG Dispatching_message
                    (world_with [Arrive (from_peer ACK 101 500 [])]))))))).
Proof.
  rewrite (proj2 (proj2 (syn_creates_connection sample_config
             (from_peer SYN 100 0 []) (server_with None)
             (world_with [Arrive (from_peer ACK 101 500 [])]) 3
             eq_refl (or_introl eq_refl) eq_refl))).
  reflexivity.
Defined.

(** ** A bad sequence number *)

(** C6, as amended.  A message that is not a SYN, comes from the
    connected peer and does not carry the expected sequence number makes
    [_dispatch] abandon the connection at once, whatever its kind and
    payload: nothing is sent, and the log names the bad sequence number. *)
Theorem bad_sequence_abandons cfg m s w c :
  Server.conn s = Some c ->
  Connection.remote_adr c = Message.src_adr m ->
  Message.is_syn m = false ->
  Message.seq_no m <> Connection.next_expected_index c ->
  Server._dispatch cfg m (s, w)
  = (Return tt,
     (with_conn None s,
      write_log WARNING
        (Client_connectivity_lost
           (Bad_sequence_number (Message.seq_no m)
              (Connection.last_index_received c + 1)%Z))
        (write_log DEBUG Dispatching_message w))).
Proof.
  intros Hc Ha Hsyn Hseq.
  rewrite dispatch_step. cbv zeta.
  unfold Server.foreign_address. rewrite Hc.
  apply adr_eqb_eq in Ha. rewrite Ha. cbn [negb]. rewrite Hsyn.
  apply Z.eqb_neq in Hseq. rewrite Hseq. reflexivity.
Qed.

Lemma bad_sequence_abandons_witness :
  Server.conn
    (fst (snd (Server._dispatch sample_config (from_peer APP 250 501 [x61])
                 (server_with (Some peer_connection), world_with []))))
  = None.
Proof.
  rewrite (bad_sequence_abandons sample_config (from_peer APP 250 501 [x61])
             (server_with (Some peer_connection)) (world_with []) peer_connection
             eq_refl eq_refl eq_refl).
  - reflexivity.
  - discriminate.
Defined.

(** A SYN of the connected peer with an unexpected sequence number does
    not end the connection: it resets it. *)
Lemma bad_sequence_syn_keeps_connection :
  ~ every_bad_sequence_abandons sample_config.
Proof.
  intros H.
  specialize (H (from_peer SYN 700 0 [])
                (server_with (Some peer_connection))
                (world_with [Arrive (from_peer ACK 701 500 [])])
                peer_connection eq_refl eq_refl).
  assert (Hseq : Message.seq_no (from_peer SYN 700 0 [])
                 <> Connection.next_expected_index peer_connection)
    by discriminate.
  specialize (H Hseq). vm_compute in H. discriminate H.
Qed.

(** ** The address assertion of [_receive_connection] *)

Section AddressAssertion.

Import Server.

Variable cfg : Config.

Let P : Exn -> Prop := fun e => e <> AssertionError Same_remote_address.

Ltac raises :=
  repeat first
    [ apply raises_ret | apply raises_self | apply raises_world
    | apply raises_set_conn | apply raises_logging
    | apply raises_raise; discriminate
    | apply raises_assert; intros _; discriminate
    | apply raises_self_conn; discriminate
    | apply send_until_ack_in_raises; [discriminate | intros ?; discriminate]
    | apply raises_bind; [| intros ?]
    | match goal with
      | |- raises_only _ (match ?x with _ => _ end) => destruct x
      end ].

Lemma send_data_no_address_assertion data : raises_only P (_send_data cfg data).
Proof. unfold _send_data, P. raises. Qed.

Lemma close_connection_no_address_assertion : raises_only P (_close_connection cfg).
Proof. unfold _close_connection, P. raises. Qed.

Lemma send_chunks_no_address_assertion chunks : raises_only P (send_chunks cfg chunks).
Proof.
  induction chunks as [|chunk chunks IH]; cbn [send_chunks].
  - apply raises_ret.
  - apply raises_bind; [apply send_data_no_address_assertion | intros ack].
    destruct (is_none ack); [apply raises_ret | exact IH].
Qed.

Lemma process_get_request_no_address_assertion m :
  raises_only P (_process_get_request cfg m).
Proof.
  unfold _process_get_request.
  apply raises_bind; [apply raises_self | intros s].
  apply raises_bind; [apply raises_assert; intros _; discriminate | intros _].
  apply raises_bind; [apply raises_logging | intros _].
  apply raises_bind; [apply raises_self_conn; discriminate | intros c].
  apply raises_bind; [apply raises_set_conn | intros _].
  apply raises_bind; [apply raises_world | intros w].
  apply raises_bind.
  - destruct (negb (os_path_isfile _ w)).
    + apply raises_bind; [apply raises_logging | intros _].
      apply raises_bind; [apply send_data_no_address_assertion | intros ack].
      apply raises_ret.
    + apply raises_bind.
      * unfold get_data_from.
        apply raises_bind; [apply raises_world | intros w0].
        destruct (lookup_file _ _); [apply raises_ret |].
        apply raises_raise. discriminate.
      * intros chunks.
        apply raises_bind; [apply raises_logging | intros _].
        apply send_chunks_no_address_assertion.
  - intros [|]; [apply close_connection_no_address_assertion | apply raises_ret].
Qed.

Lemma dispatch_rec_no_address_assertion d : forall m,
  raises_only P (dispatch_rec cfg d m).
Proof.
  induction d as [|d IH]; intros m [s w] e st' H.
  - discriminate.
  - rewrite dispatch_rec_step in H. cbv zeta in H.
    destruct (foreign_address s m) eqn:Ef.
    { destruct (foreign_packet_result_cases cfg m s
                  (write_log DEBUG Dispatching_message w)) as [[v Hv]|Hv];
        rewrite Hv in H; inversion H; subst. discriminate. }
    destruct (Message.is_syn m) eqn:Es.
    + rewrite receive_connection_cases, Es, Ef in H.
      destruct (_send_until_ack_in cfg _ _) as [[[r|]|e0|] st0] eqn:E.
      * destruct (Message.is_ack_only r); [discriminate |].
        eapply IH; eassumption.
      * discriminate.
      * inversion H; subst.
        eapply (send_until_ack_in_raises cfg P); [| | eassumption];
          [discriminate | intros ?; discriminate].
      * discriminate.
    + destruct (conn s) as [c|]; [|discriminate].
      destruct (_ =? _)%Z; [|discriminate].
      destruct (PacketType_eqb _ APP); [|discriminate].
      eapply process_get_request_no_address_assertion; eassumption.
Qed.

End AddressAssertion.

(** The SYN branch of [_dispatch] is reached with a connection only when
    the connection's peer sent the message. *)
Lemma syn_branch_same_peer m s c :
  Server.conn s = Some c ->
  Server.foreign_address s m = false ->
  Connection.remote_adr c = Message.src_adr m.
Proof.
  intros Hc Hf. unfold Server.foreign_address in Hf.
  rewrite Hc in Hf. apply negb_false_iff in Hf. apply adr_eqb_eq. exact Hf.
Qed.

(** C10.  However [_dispatch] is entered (any message, any server state,
    any events to come, nested calls included), it never fails with the
    address-equality assertion of [_receive_connection]: a SYN reaches
    that method only after the foreign-address check let it pass. *)
Theorem receive_connection_assertion_holds cfg m st :
  fst (Server._dispatch cfg m st) <> Raise (AssertionError Same_remote_address).
Proof.
  unfold Server._dispatch.
  destruct (Server.dispatch_rec cfg _ m st) as [[u|e|] st'] eqn:E;
    cbn; try discriminate.
  intros Heq. inversion Heq; subst.
  eapply dispatch_rec_no_address_assertion in E. apply E. reflexivity.
Qed.

(** ** Closing the connection *)

(** Whenever [_close_connection] returns, the server is idle. *)
Lemma close_connection_returns_idle cfg st st' :
  Server._close_connection cfg st = (Return tt, st') ->
  Server.conn (fst st') = None.
Proof.
  destruct st as [s w]. destruct (Server.conn s) as [c|] eqn:Hc.
  - rewrite (close_connection_run cfg s w c Hc).
    destruct (Server._send_until_ack_in cfg _ _) as [[[r|]|e|] [s' w']];
      intros H; inversion H; reflexivity.
  - destruct s as [a sk cn]. cbn in Hc. subst cn.
    unfold Server._close_connection, Server.bind, Server.self. cbn.
    intros H. inversion H. reflexivity.
Qed.

(** C8.  On a connected server [_close_connection] sends its FIN through
    the reliable-send primitive, and for each outcome of the
    acknowledgment wait (no acknowledgment, a response that is not a FIN,
    a FIN) it returns with the connection cleared; the outcomes differ in
    the log line only. *)
Theorem close_connection_clears cfg s w fd c o w' :
  Server.sock s = Some fd ->
  Server.conn s = Some c ->
  send_until_ack_in cfg (fin_message c) (Some fd) (Connection.remote_adr c)
    (write_log INFO Closing_connection w) = (Return o, w') ->
  Server._close_connection cfg (s, w)
  = (Return tt, (with_conn None s, close_report o w'))
  /\ Server.conn (fst (snd (Server._close_connection cfg (s, w)))) = None.
Proof.
  intros Hs Hc Hw.
  assert (E : Server._close_connection cfg (s, w)
              = (Return tt, (with_conn None s, close_report o w'))).
  { rewrite (close_connection_run cfg s w c Hc).
    rewrite (send_until_ack_in_run cfg _ _ _ fd
               (snd (Connection.get_seq_and_increment c)));
      [| destruct s; exact Hs | destruct s; reflexivity].
    unfold send_until_ack_in, fin_message in Hw. cbn [Connection.get_seq_and_increment
      snd Connection.remote_adr]. rewrite Hw.
    destruct o as [r|]; [|destruct s; reflexivity].
    unfold close_report. destruct (Message.is_fin r); destruct s; reflexivity. }
  split; [exact E |]. rewrite E. reflexivity.
Qed.

Lemma close_connection_clears_witness :
  Server.conn
    (fst (snd (Server._close_connection sample_config
                 (server_with (Some peer_connection),
                  world_with [Arrive (from_peer ACK 101 501 [])]))))
  = None.
Proof.
  apply (close_connection_clears sample_config
           (server_with (Some peer_connection))
           (world_with [Arrive (from_peer ACK 101 501 [])])
           3 peer_connection (Some (from_peer ACK 101 501 []))
           (with_inbox []
              (sent_times 1 3 (Some peer) (fin_message peer_connection)
                 (write_log INFO Closing_connection
                    (world_with [Arrive (from_peer ACK 101 501 [])]))))
           eq_refl eq_refl eq_refl).
Defined.

(** ** Serving and the socket *)

(** When the body of [serve] ends in an exception while the server holds
    its socket, the socket is closed and the exception goes on. *)
Lemma serve_releases_bound_socket cfg rounds st e s' w' fd :
  Server.bind (Server._create_and_bind_socket) (fun _ => Server._serve_loop cfg rounds) st
    = (Raise e, (s', w')) ->
  Server.sock s' = Some fd ->
  exists w'',
    Server.serve cfg rounds st
    = (Raise e, (Server.mk (Server.adr s') None (Server.conn s'), w''))
    /\ socket_is_open fd w'' = false.
Proof.
  intros Hb Hs. unfold Server.serve, Server.try_finally. rewrite Hb.
  unfold Server.bind at 1. unfold Server.bind at 1. unfold Server.self at 1.
  cbn [fst snd]. rewrite Hs.
  unfold Server.io, sock_close, Server.set_sock. cbn [fst snd].
  eexists. split; [reflexivity |].
  unfold socket_is_open. cbn [open_socks].
  induction (open_socks w') as [|x l IH]; [reflexivity |].
  cbn [filter]. destruct (Nat.eqb x fd) eqn:E; cbn [negb existsb]; [exact IH |].
  rewrite Nat.eqb_sym, E. exact IH.
Qed.

(** C9.  When [bind] fails at startup, [serve] does not release the
    socket it created and does not re-raise the failure: [self.sock] is
    still [None] in the [finally] clause, so [self.sock.close()] raises
    an AttributeError that replaces the OSError, and the new socket stays
    open. *)
Theorem bind_failure_leaks_socket cfg rounds s w :
  Server.sock s = None ->
  bind_refused w = true ->
  exists w',
    Server.serve cfg rounds (s, w) = (Raise (AttributeError "close"), (s, w'))
    /\ socket_is_open (next_sock w) w' = true.
Proof.
  intros Hs Hb. destruct s as [a sk cn]. cbn in Hs. subst sk.
  unfold Server.serve, Server.try_finally, Server._create_and_bind_socket,
    Server.bind, Server.self, Server.io, socket_socket, sock_bind.
  cbn. rewrite Hb. cbn.
  eexists. split; [reflexivity |].
  unfold socket_is_open. cbn. rewrite Nat.eqb_refl. reflexivity.
Qed.

Lemma bind_failure_leaks_socket_witness :
  exists w',
    Server.serve sample_config 5
      (Server.mk home None None,
       {| inbox := []; wire := []; journal := []; files := [];
          open_socks := []; bound := []; next_sock := 3; bind_refused := true |})
    = (Raise (AttributeError "close"), (Server.mk home None None, w'))
    /\ socket_is_open 3 w' = true.
Proof.
  apply (bind_failure_leaks_socket sample_config 5 (Server.mk home None None)
           {| inbox := []; wire := []; journal := []; files := [];
              open_socks := []; bound := []; next_sock := 3;
              bind_refused := true |}
           eq_refl eq_refl).
Defined.

(** A user interrupt during the loop: the socket is closed, then the
    interrupt goes on to the caller. *)
Lemma interrupt_releases_socket cfg rounds s w rest :
  Server.conn s = None ->
  bind_refused w = false ->
  inbox w = Interrupt :: rest ->
  exists s' w',
    Server.serve cfg (S rounds) (s, w) = (Raise KeyboardInterrupt, (s', w'))
    /\ Server.sock s' = None
    /\ socket_is_open (next_sock w) w' = false.
Proof.
  intros Hc Hb Hi. destruct s as [a sk cn]. cbn in Hc. subst cn.
  assert (Hbody : exists w1,
    Server.bind (Server._create_and_bind_socket)
      (fun _ => Server._serve_loop cfg (S rounds)) (Server.mk a sk None, w)
    = (Raise KeyboardInterrupt, (Server.mk a (Some (next_sock w)) None, w1))).
  { unfold Server._create_and_bind_socket, Server.bind, Server.self, Server.io,
      socket_socket, sock_bind, sock_getsockname, Server.set_sock, Server.set_adr,
      Server.logging.
    cbn. rewrite Hb. cbn. rewrite Nat.eqb_refl. cbn.
    unfold Server.serve_round, Server.except_timeout, Server.bind, Server.self,
      Server.logging, Server.io, try_read_message. cbn. rewrite Hi. cbn.
    eexists. reflexivity. }
  destruct Hbody as [w1 Hbody].
  destruct (serve_releases_bound_socket cfg (S rounds) _ _ _ _ (next_sock w)
              Hbody eq_refl) as [w'' [H1 H2]].
  eexists. exists w''. split; [exact H1 |]. split; [reflexivity | exact H2].
Qed.

(** ** Splitting and sending a file *)

Lemma send_data_size_assertion cfg data st :
  (Z.of_nat (List.length data) <= MAX_PAYLOAD_SIZE cfg)%Z ->
  fst (Server._send_data cfg data st) <> Raise (AssertionError Data_chunk_too_large).
Proof.
  intros Hlen. apply Z.leb_le in Hlen. destruct st as [s w].
  rewrite send_data_cases, Hlen.
  destruct (Server.conn s) as [c|]; [|cbn; discriminate].
  destruct (Server._send_until_ack_in cfg _ _) as [[r|e|] st'] eqn:E;
    cbn; try discriminate.
  intros Heq. inversion Heq; subst.
  eapply (send_until_ack_in_raises cfg
            (fun e => e <> AssertionError Data_chunk_too_large)) in E;
    [apply E; reflexivity | discriminate | intros ?; discriminate].
Qed.

(** C2.  With constants that fit together, [_get_data_from_file] cuts the
    bytes of a file into chunks whose concatenation is the file; there is
    at least one chunk, and exactly the one empty chunk for the empty
    file; every chunk but the last has [MAX_PAYLOAD_SIZE - HTTP_CODE_LEN]
    bytes; and every chunk with the status code in front is at most
    [MAX_PAYLOAD_SIZE] long, so that the size assertion of [_send_data]
    holds for it. *)
Theorem file_is_split_into_fitting_chunks cfg content :
  chunks_fit cfg ->
  let size := (MAX_PAYLOAD_SIZE cfg - HTTP_CODE_LEN cfg)%Z in
  let chunks := _get_data_from_file content size in
  List.concat chunks = content
  /\ chunks <> []
  /\ (content = [] -> chunks = [[]])
  /\ Forall (fun ch => Z.of_nat (List.length ch) = size) (removelast chunks)
  /\ Forall (fun ch =>
       (Z.of_nat (List.length (HTTP_OK_ENCODED cfg ++ ch)) <= MAX_PAYLOAD_SIZE cfg)%Z
       /\ forall st,
            fst (Server._send_data cfg (HTTP_OK_ENCODED cfg ++ ch) st)
            <> Raise (AssertionError Data_chunk_too_large)) chunks.
Proof.
  intros [Hpos Hcode] size chunks.
  split; [apply get_data_concat; exact Hpos |].
  split.
  { subst chunks. unfold _get_data_from_file.
    destruct (read_chunks size content); discriminate. }
  split.
  { intros ->. subst chunks. unfold _get_data_from_file.
    rewrite read_chunks_nil by exact Hpos. reflexivity. }
  split; [apply get_data_full; exact Hpos |].
  pose proof (get_data_bound size Hpos content) as Hb. fold chunks in Hb.
  eapply Forall_impl; [|exact Hb].
  intros ch Hch. cbv beta in Hch.
  assert (Hlen : (Z.of_nat (List.length (HTTP_OK_ENCODED cfg ++ ch))
                  <= MAX_PAYLOAD_SIZE cfg)%Z).
  { rewrite length_app, Nat2Z.inj_add, Hcode. subst size. lia. }
  split; [exact Hlen |].
  intros st. apply send_data_size_assertion. exact Hlen.
Qed.

Lemma file_is_split_into_fitting_chunks_witness :
  List.concat (_get_data_from_file sample_file 5) = sample_file
  /\ List.concat (_get_data_from_file [] 5) = [].
Proof.
  split.
  - exact (proj1 (file_is_split_into_fitting_chunks sample_config sample_file
                    (conj eq_refl eq_refl))).
  - exact (proj1 (file_is_split_into_fitting_chunks sample_config []
                    (conj eq_refl eq_refl))).
Defined.

(** ** A chunk that is never acknowledged *)

(** C7.  In a transfer of the chunks [pre ++ chunk :: post] of a file:
    when the chunks of [pre] were acknowledged and nothing arrives during
    the retry budget of [chunk], [_process_get_request] returns with the
    connection abandoned; after the acknowledged chunks the wire carries
    the retransmissions of [chunk] and nothing else (no chunk of [post],
    no FIN of a termination handshake). *)
Theorem lost_chunk_stops_transfer cfg m s w fd c content pre chunk post st2 :
  chunks_fit cfg ->
  Server.sock s = Some fd ->
  Server.conn s = Some c ->
  lookup_file (Message.get_payload_as_text m) (files w) = Some content ->
  _get_data_from_file content (MAX_PAYLOAD_SIZE cfg - HTTP_CODE_LEN cfg)
    = pre ++ chunk :: post ->
  Server.send_chunks cfg pre (get_request_started cfg m content c (s, w))
    = (Return true, st2) ->
  silent_for (DEFAULT_RETRY_THRESHOLD cfg) (inbox (snd st2)) = true ->
  exists c2 st3,
    Server.conn (fst st2) = Some c2
    /\ Server._process_get_request cfg m (s, w) = (Return tt, st3)
    /\ Server.conn (fst st3) = None
    /\ wire (snd st3)
       = wire (snd st2)
         ++ repeat
              {| dg_sock := fd; dg_dest := Connection.remote_adr c2;
                 dg_msg :=
                   create_app_message (Connection.next_seq_no c2)
                     (Connection.last_index_received c2)
                     (HTTP_OK_ENCODED cfg ++ chunk) |}
              (DEFAULT_RETRY_THRESHOLD cfg)
    /\ sent_of_kind FIN (snd st3) = sent_of_kind FIN w.
Proof.
  intros Hfit Hs Hc Hfile Hchunks Hpre Hquiet.
  destruct Hfit as [Hpos Hcode].
  pose proof (get_data_bound _ Hpos content) as Hsizes.
  rewrite Hchunks in Hsizes.
  apply Forall_app in Hsizes. destruct Hsizes as [_ Hsizes].
  inversion Hsizes as [|? ? Hchunk _]; subst.
  assert (Hsize : (Z.of_nat (List.length (HTTP_OK_ENCODED cfg ++ chunk))
                   <= MAX_PAYLOAD_SIZE cfg)%Z).
  { rewrite length_app, Nat2Z.inj_add, Hcode. lia. }
  (* the state after the acknowledged chunks *)
  destruct (send_chunks_acked cfg pre _ _ Hpre) as [Hc2 Hs2].
  { unfold get_request_started. destruct s; cbn. discriminate. }
  destruct st2 as [s2 w2]. cbn [fst snd] in *.
  destruct (Server.conn s2) as [c2|] eqn:Ec2; [|congruence].
  assert (Hsock2 : Server.sock s2 = Some fd).
  { rewrite Hs2. unfold get_request_started. destruct s; cbn in *. exact Hs. }
  pose proof (send_chunks_kind cfg FIN pre _ _ _ eq_refl Hpre) as Hfin.
  cbn [snd] in Hfin.
  exists c2. eexists. split; [reflexivity |].
  rewrite (process_get_request_file cfg m s w c content Hc Hfile).
  rewrite Hchunks, send_chunks_app, Hpre.
  cbn [Server.send_chunks]. unfold Server.bind at 1.
  rewrite (send_data_lost cfg _ s2 w2 fd c2 Hsock2 Ec2 Hsize Hquiet).
  cbn [is_none Server.ret].
  split; [reflexivity |]. split; [destruct s2; reflexivity |].
  split; [reflexivity |].
  cbn [snd]. rewrite sent_of_kind_write_log.
  rewrite sent_of_kind_sent_times by reflexivity. exact Hfin.
Qed.

Lemma lost_chunk_stops_transfer_witness :
  exists c2 st3,
    Server.conn
      (with_conn (Some (Connection.mk (Some peer) 101 502))
         (server_with (Some peer_connection))) = Some c2
    /\ Server._process_get_request sample_config
         (from_peer APP 101 501 (list_byte_of_string "data.bin"))
         (server_with (Some peer_connection),
          world_with [Arrive (from_peer ACK 102 501 [])])
       = (Return tt, st3)
    /\ Server.conn (fst st3) = None
    /\ List.length (wire (snd st3)) = 4
    /\ sent_of_kind FIN (snd st3) = [].
Proof.
  destruct (lost_chunk_stops_transfer sample_config
              (from_peer APP 101 501 (list_byte_of_string "data.bin"))
              (server_with (Some peer_connection))
              (world_with [Arrive (from_peer ACK 102 501 [])])
              3 peer_connection sample_file
              [[x61; x62; x63; x64; x65]] [x66; x67; x68; x69; x6a] [[x6b]]
              (snd (Server.send_chunks sample_config [[x61; x62; x63; x64; x65]]
                      (get_request_started sample_config
                         (from_peer APP 101 501 (list_byte_of_string "data.bin"))
                         sample_file peer_connection
                         (server_with (Some peer_connection),
                          world_with [Arrive (from_peer ACK 102 501 [])]))))
              (conj eq_refl eq_refl) eq_refl eq_refl eq_refl eq_refl eq_refl eq_refl)
    as (c2 & st3 & H1 & H2 & H3 & H4 & H5).
  exists c2, st3. split; [exact H1 |]. split; [exact H2 |]. split; [exact H3 |].
  split; [rewrite H4; reflexivity | exact H5].
Defined.

(** ** The end-to-end scenarios of the specification *)

(** The client opens with sequence number 100 and asks for a file that
    does not exist: the server answers SYN (500, ack 100), then the
    not-found status (501, ack 101), then FIN, and is idle again. *)
Example end_to_end_missing_file :
  let run :=
    Server._dispatch sample_config (from_peer SYN 100 0 [])
      (server_with None,
       world_with
         [Arrive (from_peer APP 101 500 (list_byte_of_string "missing.txt"));
          Arrive (from_peer ACK 102 501 []);
          Arrive (from_peer FIN 103 502 [])]) in
  fst run = Return tt
  /\ Server.conn (fst (snd run)) = None
  /\ map dg_msg (wire (snd (snd run)))
     = [create_syn_message 500 100;
        create_app_message 501 101 [x34; x30; x34];
        create_fin_message 502 101].
Proof. vm_compute. repeat split. Qed.

(** A file of exactly two full chunks goes out as two APP messages, each
    acknowledged before the next, followed by the FIN. *)
Example end_to_end_two_chunks :
  let run :=
    Server._dispatch sample_config (from_peer APP 101 501 (list_byte_of_string "ten.bin"))
      (server_with (Some peer_connection),
       {| inbox := [Arrive (from_peer ACK 102 501 []);
                    Arrive (from_peer ACK 103 502 []);
                    Arrive (from_peer FIN 104 503 [])];
          wire := []; journal := [];
          files := [("ten.bin"%string,
                     [x30; x31; x32; x33; x34; x35; x36; x37; x38; x39])];
          open_socks := [3]; bound := [(3, home)]; next_sock := 4;
          bind_refused := false |}) in
  fst run = Return tt
  /\ Server.conn (fst (snd run)) = None
  /\ map dg_msg (wire (snd (snd run)))
     = [create_app_message 501 101 [x32; x30; x30; x30; x31; x32; x33; x34];
        create_app_message 502 101 [x32; x30; x30; x35; x36; x37; x38; x39];
        create_fin_message 503 101].
Proof. vm_compute. repeat split. Qed.

(** * Further properties of the server's code *)

(** ** The shape of the chunk list *)

Section ChunkShape.

(** One turn of the reading loop. *)
Lemma read_chunks_turn size rest :
  read_chunks size rest
  = match file_read size rest with
    | ([], _) => []
    | (chunk, rest') => chunk :: read_chunks size rest'
    end.
Proof.
  funelim (read_chunks size rest).
  - match goal with H : file_read _ _ = _ |- _ => rewrite H end. reflexivity.
  - match goal with H : file_read _ _ = _ |- _ => rewrite H end. reflexivity.
Qed.

Lemma read_chunks_empty size : read_chunks size [] = [].
Proof.
  rewrite read_chunks_turn. unfold file_read.
  destruct (_ <? _)%Z; [reflexivity |]. rewrite firstn_nil. reflexivity.
Qed.

Lemma read_chunks_zero rest : read_chunks 0 rest = [].
Proof. rewrite read_chunks_turn. reflexivity. Qed.

Lemma read_chunks_negative size rest :
  (size < 0)%Z -> rest <> [] -> read_chunks size rest = [rest].
Proof.
  intros Hneg Hne. rewrite read_chunks_turn. unfold file_read.
  destruct (Z.ltb_spec size 0); [|lia].
  destruct rest; [congruence |]. rewrite read_chunks_empty. reflexivity.
Qed.

Lemma ceil_step len k :
  0 < k -> 0 < len -> (len + k - 1) / k = S ((len - k + k - 1) / k).
Proof.
  intros Hk Hl. destruct (Nat.le_gt_cases len k) as [Hle|Hgt].
  - replace (len - k + k - 1) with (k - 1) by lia.
    rewrite (Nat.div_small (k - 1) k) by lia.
    symmetry. apply (Nat.div_unique _ _ 1 (len - 1)); lia.
  - replace (len - k + k - 1) with (len - 1) by lia.
    replace (len + k - 1) with (len - 1 + 1 * k) by lia.
    rewrite Nat.div_add by lia. lia.
Qed.

Lemma read_chunks_count size : forall rest,
  (0 < size)%Z ->
  List.length (read_chunks size rest)
  = (List.length rest + Z.to_nat size - 1) / Z.to_nat size.
Proof.
  intros rest Hpos.
  remember (List.length rest) as len eqn:El. revert rest El.
  induction len as [len IH] using lt_wf_ind. intros rest El.
  rewrite read_chunks_turn. unfold file_read.
  destruct (Z.ltb_spec size 0) as [|_]; [lia |].
  set (k := Z.to_nat size). assert (Hk : 0 < k) by (subst k; lia).
  destruct rest as [|b rest].
  - cbn in El. subst len. rewrite firstn_nil. cbn [List.length].
    symmetry. apply Nat.div_small. lia.
  - destruct k as [|k'] eqn:Ek; [lia |]. cbn [firstn skipn List.length].
    rewrite (IH (List.length (skipn k' rest))) with (rest := skipn k' rest);
      [| rewrite length_skipn; cbn in El; lia | reflexivity].
    rewrite (ceil_step len (S k')); [| lia | cbn in El; lia].
    rewrite length_skipn. cbn in El. subst len.
    f_equal. f_equal. lia. exact Ek.
Qed.

End ChunkShape.

(** X1.  For a chunk size between 1 and the size of a datagram (65535)
    the file is cut into ceil(length / size) chunks, none of them empty;
    only the empty file gives the single empty chunk. *)
Theorem chunk_count content size :
  datagram_sized size ->
  let chunks := _get_data_from_file content size in
  List.length chunks
  = Nat.max 1 ((List.length content + Z.to_nat size - 1) / Z.to_nat size)
  /\ (content <> [] -> Forall (fun chunk => chunk <> []) chunks).
Proof.
  intros [Hpos _] chunks. subst chunks. unfold _get_data_from_file.
  pose proof (read_chunks_count size content Hpos) as Hc.
  pose proof (read_chunks_nonempty size content) as Hn.
  pose proof (read_chunks_concat size Hpos content) as Hcat.
  destruct (read_chunks size content) as [|c cs] eqn:E.
  - cbn in Hc. rewrite <- Hc. split; [reflexivity |].
    intros Hne. cbn in Hcat. congruence.
  - split; [|intros _; exact Hn].
    rewrite <- Hc. cbn [List.length]. lia.
Qed.

Lemma chunk_count_witness :
  List.length (_get_data_from_file sample_file 5) = 3.
Proof.
  refine (proj1 (chunk_count sample_file 5 _)).
  split; [reflexivity | discriminate].
Defined.

(** X2.  The two sizes at which the reading loop degenerates: with size
    0 the result is the single empty chunk whatever the file holds (its
    bytes are not in the result), and with size -1 the whole file is one
    chunk. *)
Theorem degenerate_chunk_size content size :
  size = 0%Z \/ size = (-1)%Z ->
  _get_data_from_file content size
  = [if (size =? 0)%Z then [] else content].
Proof.
  intros Hsize. unfold _get_data_from_file.
  destruct Hsize as [-> | ->].
  - rewrite read_chunks_zero. reflexivity.
  - destruct content as [|b content].
    + rewrite read_chunks_empty. reflexivity.
    + rewrite read_chunks_negative by (lia || discriminate). reflexivity.
Qed.

Lemma degenerate_chunk_size_witness :
  _get_data_from_file sample_file 0 = [[]]
  /\ _get_data_from_file sample_file (-1) = [sample_file].
Proof.
  split.
  - apply (degenerate_chunk_size sample_file 0). left. reflexivity.
  - apply (degenerate_chunk_size sample_file (-1)). right. reflexivity.
Defined.

(** X3.  What the unit test checks on two inputs holds for every file:
    with the default chunk size [MAX_PAYLOAD_SIZE], joining the chunks
    gives the file back and no chunk is longer than [MAX_PAYLOAD_SIZE]. *)
Theorem default_chunk_size_test cfg content :
  (0 < MAX_PAYLOAD_SIZE cfg)%Z ->
  let result := _get_data_from_file content (MAX_PAYLOAD_SIZE cfg) in
  List.concat result = content
  /\ Forall (fun chunk =>
       (Z.of_nat (List.length chunk) <= MAX_PAYLOAD_SIZE cfg)%Z) result.
Proof.
  intros Hpos result. split.
  - apply get_data_concat. exact Hpos.
  - apply get_data_bound. exact Hpos.
Qed.

Lemma default_chunk_size_test_witness :
  List.concat (_get_data_from_file sample_file 8) = sample_file.
Proof.
  exact (proj1 (default_chunk_size_test sample_config sample_file eq_refl)).
Defined.

(** ** What goes onto the wire *)

Section Wire.

Import Server.

Variable cfg : Config.

#[local] Arguments _send_until_ack_in : simpl never.
#[local] Arguments _send_data : simpl never.
#[local] Arguments _close_connection : simpl never.

Lemma wire_sent_times j fd adr m evs w :
  wire (with_inbox evs (sent_times j fd adr m w))
  = wire w ++ repeat {| dg_sock := fd; dg_dest := adr; dg_msg := m |} j.
Proof. reflexivity. Qed.







End Wire.

(** ** A GET request from start to end *)

Section GetRequest.

Import Server.

Variable cfg : Config.

#[local] Arguments _send_until_ack_in : simpl never.
#[local] Arguments _send_data : simpl never.
#[local] Arguments send_chunks : simpl never.
#[local] Arguments _close_connection : simpl never.

Lemma send_until_ack_in_none msg st st' :
  _send_until_ack_in cfg msg st = (Return None, st') -> conn (fst st') = None.
Proof.
  destruct st as [[a sk cn] w].
  destruct cn as [c|]; [|discriminate].
  destruct sk as [fd|]; [|discriminate].
  rewrite (send_until_ack_in_run cfg msg (mk a (Some fd) (Some c)) w fd c
             eq_refl eq_refl).
  destruct (send_attempts _ _ _ _ _) as [[[r|]|e|] w']; intros H;
    inversion H; reflexivity.
Qed.

Lemma send_data_none data st st' :
  _send_data cfg data st = (Return None, st') -> conn (fst st') = None.
Proof.
  destruct st as [s w]. rewrite send_data_cases.
  destruct (_ <=? _)%Z; [|discriminate].
  destruct (conn s); [|discriminate].
  apply send_until_ack_in_none.
Qed.

Lemma send_chunks_false chunks : forall st st',
  send_chunks cfg chunks st = (Return false, st') -> conn (fst st') = None.
Proof.
  induction chunks as [|chunk chunks IH]; intros st st' H.
  - discriminate.
  - change (send_chunks cfg (chunk :: chunks) st)
      with (bind (_send_data cfg (HTTP_OK_ENCODED cfg ++ chunk))
              (fun ack => if is_none ack then ret false
                          else send_chunks cfg chunks) st) in H.
    unfold bind in H.
    destruct (_send_data cfg _ st) as [[[r|]|e|] st1] eqn:E;
      cbn [is_none] in H; try discriminate.
    + eapply IH; exact H.
    + inversion H; subst. eapply send_data_none; exact E.
Qed.

(** [_process_get_request] for a path that is not a file, on a connected
    server: the not-found status is sent, and the connection is closed
    only when it was acknowledged. *)
Lemma process_get_request_missing m s w c :
  conn s = Some c ->
  lookup_file (Message.get_payload_as_text m) (files w) = None ->
  _process_get_request cfg m (s, w)
  = match
      _send_data cfg (HTTP_FILE_NOT_FOUND_ENCODED cfg)
        (with_conn (Some (Connection.increment_next_expected_index c)) s,
         write_log INFO (No_such_file (Message.get_payload_as_text m))
           (write_log INFO (Received_request_for (Message.get_payload_as_text m)) w))
    with
    | (Return (Some _), st') => _close_connection cfg st'
    | (Return None, st') => (Return tt, st')
    | (Raise e, st') => (Raise e, st')
    | (Pending, st') => (Pending, st')
    end.
Proof.
  destruct s as [a sk cn]. cbn [conn]. intros -> Hf.
  unfold _process_get_request, bind, self, assert, self_conn, world,
    os_path_isfile. cbn.
  rewrite Hf. cbn. unfold with_conn. cbn.
  match goal with |- context [_send_data cfg ?d ?st] =>
    destruct (_send_data cfg d st) as [[[r|]|e|] st'] end; reflexivity.
Qed.

Lemma process_get_request_idle m s w :
  conn s = None ->
  _process_get_request cfg m (s, w)
  = (Raise (AssertionError Needs_connection), (s, w)).
Proof.
  destruct s as [a sk cn]. cbn [conn]. intros ->. reflexivity.
Qed.

End GetRequest.

(** X4.  Whenever [_process_get_request] returns, the server is idle:
    the connection was closed after the last acknowledged reply, or
    abandoned when a reply stayed unacknowledged.  A connection serves
    one request. *)
Theorem get_request_ends_idle cfg m st st' :
  Server._process_get_request cfg m st = (Return tt, st') ->
  Server.conn (fst st') = None.
Proof.
  destruct st as [s w]. destruct (Server.conn s) as [c|] eqn:Hc.
  - destruct (lookup_file (Message.get_payload_as_text m) (files w))
      as [content|] eqn:Hf.
    + rewrite (process_get_request_file cfg m s w c content Hc Hf).
      destruct (Server.send_chunks cfg _ _) as [[[|]|e|] st1] eqn:E;
        try discriminate.
      * apply close_connection_returns_idle.
      * intros H. inversion H; subst. eapply send_chunks_false; exact E.
    + rewrite (process_get_request_missing cfg m s w c Hc Hf).
      destruct (Server._send_data cfg _ _) as [[[r|]|e|] st1] eqn:E;
        try discriminate.
      * apply close_connection_returns_idle.
      * intros H. inversion H; subst. eapply send_data_none; exact E.
  - rewrite (process_get_request_idle cfg m s w Hc). discriminate.
Qed.

Lemma get_request_ends_idle_witness :
  Server.conn
    (fst (snd (Server._process_get_request sample_config
                 (from_peer APP 101 501 (list_byte_of_string "missing.txt"))
                 (server_with (Some peer_connection),
                  world_with [Arrive (from_peer ACK 102 501 [])]))))
  = None.
Proof.
  apply (get_request_ends_idle sample_config
           (from_peer APP 101 501 (list_byte_of_string "missing.txt"))
           (server_with (Some peer_connection),
            world_with [Arrive (from_peer ACK 102 501 [])])).
  vm_compute. reflexivity.
Defined.





(** ** Messages that are dropped *)

(** X7.  While idle, a message that is not a SYN is dropped: [_dispatch]
    returns, the server stays idle, nothing is sent, and the log gets the
    warning. *)
Theorem idle_drops_non_syn cfg m s w :
  Server.conn s = None ->
  Message.is_syn m = false ->
  Server._dispatch cfg m (s, w)
  = (Return tt,
     (s, write_log WARNING Non_SYN_without_connection
           (write_log DEBUG Dispatching_message w))).
Proof.
  intros Hc Hsyn. rewrite dispatch_step. cbv zeta.
  unfold Server.foreign_address. rewrite Hc, Hsyn. reflexivity.
Qed.

Lemma idle_drops_non_syn_witness :
  Server._dispatch sample_config (from_peer FIN 7 0 []) (server_with None, world_with [])
  = (Return tt,
     (server_with None,
      write_log WARNING Non_SYN_without_connection
        (write_log DEBUG Dispatching_message (world_with [])))).
Proof.
  apply (idle_drops_non_syn sample_config (from_peer FIN 7 0 [])
           (server_with None) (world_with []) eq_refl eq_refl).
Defined.

(** X8.  A message of the connected peer that carries the expected
    sequence number but is neither a SYN nor an APP message (a bare ACK,
    or a FIN of the client) is dropped with a warning: nothing is sent
    and the connection, its counters included, stays as it is. *)
Theorem in_sequence_non_app_is_dropped cfg m s w c :
  Server.conn s = Some c ->
  Connection.remote_adr c = Message.src_adr m ->
  Message.seq_no m = Connection.next_expected_index c ->
  Message.packet_type m = ACK \/ Message.packet_type m = FIN ->
  Server._dispatch cfg m (s, w)
  = (Return tt,
     (s, write_log WARNING Failed_to_dispatch
           (write_log DEBUG Dispatching_message w))).
Proof.
  intros Hc Ha Hseq Hk. rewrite dispatch_step. cbv zeta.
  unfold Server.foreign_address. rewrite Hc.
  apply adr_eqb_eq in Ha. rewrite Ha. cbn [negb].
  apply Z.eqb_eq in Hseq. rewrite Hseq.
  unfold Message.is_syn. destruct Hk as [-> | ->]; reflexivity.
Qed.

Lemma in_sequence_non_app_is_dropped_witness :
  Server._dispatch sample_config (from_peer FIN 101 501 [])
    (server_with (Some peer_connection), world_with [])
  = (Return tt,
     (server_with (Some peer_connection),
      write_log WARNING Failed_to_dispatch
        (write_log DEBUG Dispatching_message (world_with [])))).
Proof.
  apply (in_sequence_non_app_is_dropped sample_config (from_peer FIN 101 501 [])
           (server_with (Some peer_connection)) (world_with []) peer_connection
           eq_refl eq_refl eq_refl (or_intror eq_refl)).
Defined.

(** X9.  Data longer than [MAX_PAYLOAD_SIZE] make [_send_data] fail its
    assertion before anything else happens: nothing is sent and the
    connection's sequence counter is not used up. *)
Theorem oversized_data_is_refused cfg data st :
  (MAX_PAYLOAD_SIZE cfg < Z.of_nat (List.length data))%Z ->
  Server._send_data cfg data st
  = (Raise (AssertionError Data_chunk_too_large), st).
Proof.
  intros Hlen. destruct st as [s w]. rewrite send_data_cases.
  destruct (Z.leb_spec (Z.of_nat (List.length data)) (MAX_PAYLOAD_SIZE cfg));
    [lia | reflexivity].
Qed.

Lemma oversized_data_is_refused_witness :
  Server._send_data sample_config sample_file
    (server_with (Some peer_connection), world_with [])
  = (Raise (AssertionError Data_chunk_too_large),
     (server_with (Some peer_connection), world_with [])).
Proof.
  apply (oversized_data_is_refused sample_config sample_file
           (server_with (Some peer_connection), world_with []) eq_refl).
Defined.

(** ** Invariants of the message handlers *)

Section Keeps.

Import Server.

Variable cfg : Config.
Variable Inv : St -> Prop.
Variable good : Message.t -> Prop.

Hypothesis Inv_log : forall s w l t, Inv (s, w) -> Inv (s, write_log l t w).
Hypothesis Inv_idle : forall s w, Inv (s, w) -> Inv (with_conn None s, w).
Hypothesis Inv_same_peer : forall s w c c',
  conn s = Some c -> Connection.remote_adr c' = Connection.remote_adr c ->
  Inv (s, w) -> Inv (with_conn (Some c') s, w).
Hypothesis Inv_send : forall s w c fd msg j evs,
  conn s = Some c -> sock s = Some fd ->
  Inv (s, w) ->
  Inv (s, with_inbox evs (sent_times j fd (Connection.remote_adr c) msg w)).
Hypothesis Inv_syn : forall m s w,
  good m -> foreign_address s m = false ->
  Inv (s, w) -> Inv (with_conn (Some (syn_connection cfg m)) s, w).
Hypothesis Inv_peer : forall s w m c,
  Inv (s, w) -> conn s = Some c -> foreign_address s m = false -> good m.

#[local] Arguments _send_until_ack_in : simpl never.
#[local] Arguments _send_data : simpl never.
#[local] Arguments send_chunks : simpl never.
#[local] Arguments _close_connection : simpl never.
#[local] Arguments _process_get_request : simpl never.

Lemma send_until_ack_in_keeps msg : keeps Inv (_send_until_ack_in cfg msg).
Proof.
  intros [s w] o st' HI H.
  destruct (conn s) as [c|] eqn:Hc.
  - destruct (sock s) as [fd|] eqn:Hs.
    + rewrite (send_until_ack_in_run cfg msg s w fd c Hs Hc) in H.
      destruct (send_attempts _ msg fd (Connection.remote_adr c) w)
        as [o1 w1] eqn:E.
      apply send_attempts_wire in E. destruct E as [j Hj].
      assert (H1 : Inv (s, w1)) by (rewrite Hj; apply Inv_send; assumption).
      destruct o1 as [[r|]|e|]; inversion H; subst; auto.
    + destruct s as [a sk cn]. cbn in Hc, Hs. subst.
      unfold _send_until_ack_in, bind, self, self_conn, io, send_until_ack_in in H.
      cbn in H. inversion H; subst. exact HI.
  - destruct s as [a sk cn]. cbn in Hc. subst.
    unfold _send_until_ack_in, bind, self, self_conn in H.
    cbn in H. inversion H; subst. exact HI.
Qed.

Lemma send_data_keeps data : keeps Inv (_send_data cfg data).
Proof.
  intros [s w] o st' HI H. rewrite send_data_cases in H.
  destruct (_ <=? _)%Z; [|inversion H; subst; exact HI].
  destruct (conn s) as [c|] eqn:Hc; [|inversion H; subst; exact HI].
  eapply send_until_ack_in_keeps; [|exact H].
  eapply Inv_same_peer; [exact Hc | reflexivity | exact HI].
Qed.

Lemma send_chunks_keeps chunks : keeps Inv (send_chunks cfg chunks).
Proof.
  induction chunks as [|chunk chunks IH]; intros st o st' HI H.
  - inversion H; subst. exact HI.
  - change (send_chunks cfg (chunk :: chunks) st)
      with (bind (_send_data cfg (HTTP_OK_ENCODED cfg ++ chunk))
              (fun ack => if is_none ack then ret false
                          else send_chunks cfg chunks) st) in H.
    unfold bind in H.
    destruct (_send_data cfg _ st) as [o1 st1] eqn:E.
    apply (send_data_keeps _ _ _ _ HI) in E.
    destruct o1 as [[r|]|e|]; cbn [is_none] in H.
    + eapply IH; eassumption.
    + inversion H; subst. exact E.
    + inversion H; subst. exact E.
    + inversion H; subst. exact E.
Qed.

Lemma close_connection_keeps : keeps Inv (_close_connection cfg).
Proof.
  intros [s w] o st' HI H.
  destruct (conn s) as [c|] eqn:Hc.
  - rewrite (close_connection_run cfg s w c Hc) in H.
    destruct (_send_until_ack_in cfg _ _) as [o1 [s1 w1]] eqn:E.
    apply send_until_ack_in_keeps in E;
      [| apply (Inv_same_peer s _ c); [exact Hc | reflexivity |];
         apply Inv_log; exact HI].
    destruct o1 as [[r|]|e|]; inversion H; subst; auto.
    destruct (Message.is_fin r); auto.
  - destruct s as [a sk cn]. cbn in Hc. subst.
    unfold _close_connection, bind, self in H. cbn in H.
    inversion H; subst. apply Inv_log. exact HI.
Qed.

Lemma process_get_request_keeps m : keeps Inv (_process_get_request cfg m).
Proof.
  intros [s w] o st' HI H.
  destruct (conn s) as [c|] eqn:Hc.
  - assert (Hstart : forall text,
      Inv (with_conn (Some (Connection.increment_next_expected_index c)) s,
           write_log INFO text
             (write_log INFO (Received_request_for (Message.get_payload_as_text m)) w))).
    { intros text. apply Inv_log, Inv_log.
      eapply Inv_same_peer; [exact Hc | reflexivity | exact HI]. }
    destruct (lookup_file (Message.get_payload_as_text m) (files w))
      as [content|] eqn:Hf.
    + rewrite (process_get_request_file cfg m s w c content Hc Hf) in H.
      destruct (send_chunks cfg _ _) as [o1 st1] eqn:E.
      apply send_chunks_keeps in E; [|apply Hstart].
      destruct o1 as [[|]|e|]; try (inversion H; subst; exact E).
      eapply close_connection_keeps; eassumption.
    + rewrite (process_get_request_missing cfg m s w c Hc Hf) in H.
      destruct (_send_data cfg _ _) as [o1 st1] eqn:E.
      apply send_data_keeps in E; [|apply Hstart].
      destruct o1 as [[r|]|e|]; try (inversion H; subst; exact E).
      eapply close_connection_keeps; eassumption.
  - rewrite (process_get_request_idle cfg m s w Hc) in H.
    inversion H; subst. exact HI.
Qed.

Lemma dispatch_rec_keeps d : forall m st o st',
  Inv st ->
  (foreign_address (fst st) m = false -> good m) ->
  dispatch_rec cfg d m st = (o, st') ->
  Inv st'.
Proof.
  induction d as [|d IH]; intros m [s w] o st' HI Hg H.
  - inversion H; subst. exact HI.
  - rewrite dispatch_rec_step in H. cbv zeta in H.
    destruct (foreign_address s m) eqn:Ef.
    { destruct (foreign_packet_result_cases cfg m s
                  (write_log DEBUG Dispatching_message w)) as [[v Hv]|Hv];
        rewrite Hv in H; inversion H; subst;
        repeat apply Inv_log; exact HI. }
    specialize (Hg Ef).
    destruct (Message.is_syn m) eqn:Es.
    + rewrite receive_connection_cases, Es, Ef in H.
      destruct (_send_until_ack_in cfg _ _) as [o1 [s1 w1]] eqn:E.
      pose proof E as E'.
      apply send_until_ack_in_keeps in E.
      2:{ unfold syn_accepted. cbn [fst snd]. apply Inv_log, Inv_log.
          apply Inv_syn; [exact Hg | exact Ef |]. apply Inv_log. exact HI. }
      destruct o1 as [[r|]|e|]; try (inversion H; subst; exact E).
      destruct (Message.is_ack_only r); [inversion H; subst; exact E |].
      eapply IH; [exact E | | exact H].
      cbn [fst]. intros Hr.
      apply send_until_ack_in_response in E'. destruct E' as [E' _].
      cbn [fst] in E'.
      eapply (Inv_peer s1 w1 r (syn_connection cfg m)); [exact E | | exact Hr].
      rewrite E'. reflexivity.
    + destruct (conn s) as [c|] eqn:Hc; [|inversion H; subst; auto].
      destruct (_ =? _)%Z.
      * destruct (PacketType_eqb _ APP); [|inversion H; subst; auto].
        eapply process_get_request_keeps; [|exact H]. apply Inv_log. exact HI.
      * inversion H; subst. auto.
Qed.

Lemma dispatch_keeps m st o st' :
  Inv st ->
  (foreign_address (fst st) m = false -> good m) ->
  _dispatch cfg m st = (o, st') ->
  Inv st'.
Proof. intros HI Hg H. eapply dispatch_rec_keeps; eassumption. Qed.

End Keeps.

(** [_dispatch] leaves [self.sock] as it is. *)
Lemma dispatch_keeps_sock cfg m s w o st' :
  Server._dispatch cfg m (s, w) = (o, st') ->
  Server.sock (fst st') = Server.sock s.
Proof.
  intros E.
  eapply (dispatch_keeps cfg (fun st => Server.sock (fst st) = Server.sock s)
            (fun _ => True)); [ .. | exact E]; cbn; intros; tauto.
Qed.

(** X10.  Handling a message never touches the server's socket: after
    [_dispatch], however it ends, [self.sock] and [self.adr] are what
    they were, no socket was opened, bound or closed, and the file system
    is unchanged. *)
Theorem dispatch_leaves_socket cfg m s w :
  socket_untouched s w (snd (Server._dispatch cfg m (s, w))).
Proof.
  destruct (Server._dispatch cfg m (s, w)) as [o st'] eqn:E. cbn [snd].
  eapply (dispatch_keeps cfg (socket_untouched s w) (fun _ => True));
    [ .. | exact E];
    unfold socket_untouched; cbn; intros; tauto.
Qed.

Section RepliesTo.

Variable sent_before : list Datagram.
Variable sk : option SockId.
Variable peer_adr : option Address.

(** The invariant behind [replies_to]: the connection, while there is
    one, is with [peer_adr]. *)
Let talking_to (st : Server.St) : Prop :=
  replies_to sent_before sk peer_adr st /\
  Server.sock (fst st) = sk /\
  (forall c, Server.conn (fst st) = Some c -> Connection.remote_adr c = peer_adr).

Lemma talking_to_dispatch cfg m st o st' :
  talking_to st ->
  (Server.foreign_address (fst st) m = false -> Message.src_adr m = peer_adr) ->
  Server._dispatch cfg m st = (o, st') ->
  talking_to st'.
Proof.
  intros HI Hg H.
  eapply (dispatch_keeps cfg talking_to (fun m => Message.src_adr m = peer_adr));
    [ .. | exact HI | exact Hg | exact H]; unfold talking_to, replies_to; cbn.
  - intros s w l t Hi. exact Hi.
  - intros s w (Hr & Hs & Hc). repeat split; auto. discriminate.
  - intros s w c c' Hc Hsame (Hr & Hs & Hc').
    repeat split; auto. intros c0 E. injection E as <-.
    rewrite Hsame. apply Hc'. exact Hc.
  - intros s w c fd msg j evs Hc Hs ((l & Hw & Hl) & Hsk & Hc').
    split; [|auto]. exists (l ++ repeat {| dg_sock := fd;
      dg_dest := Connection.remote_adr c; dg_msg := msg |} j).
    rewrite Hw, app_assoc. split; [reflexivity |].
    apply Forall_app. split; [exact Hl |].
    apply Forall_forall. intros d Hd. apply repeat_spec in Hd. subst d. cbn.
    split; [congruence | apply Hc'; exact Hc].
  - intros m0 s w Hm _ (Hr & Hs & Hc). repeat split; auto.
    intros c0 E. injection E as <-. exact Hm.
  - intros s w m0 c (Hr & Hs & Hc') Hc Hf.
    rewrite <- (Hc' c Hc). symmetry. eapply syn_branch_same_peer; eassumption.
Qed.

End RepliesTo.

(** X11.  Whatever [_dispatch] sends while it handles a message (the SYN
    reply, file chunks, the FIN, their retransmissions, and what nested
    dispatches send) goes out on the server's socket to the address the
    message came from; and a message from a foreign address makes it send
    nothing: the wire is what it was. *)
Theorem dispatch_replies_to_sender cfg m s w :
  replies_to (wire w) (Server.sock s) (Message.src_adr m)
    (snd (Server._dispatch cfg m (s, w)))
  /\ (Server.foreign_address s m = true ->
      wire (snd (snd (Server._dispatch cfg m (s, w)))) = wire w).
Proof.
  assert (Hforeign : Server.foreign_address s m = true ->
            wire (snd (snd (Server._dispatch cfg m (s, w)))) = wire w).
  { intros Ef. rewrite dispatch_step. cbv zeta. rewrite Ef.
    destruct (foreign_packet_result_cases cfg m s
                (write_log DEBUG Dispatching_message w)) as [[v Hv]|Hv];
      rewrite Hv; reflexivity. }
  split; [|exact Hforeign].
  destruct (Server.foreign_address s m) eqn:Ef.
  - exists []. rewrite app_nil_r. split; [apply Hforeign; reflexivity | constructor].
  - destruct (Server._dispatch cfg m (s, w)) as [o st'] eqn:E. cbn [snd].
    eapply (talking_to_dispatch (wire w) (Server.sock s) (Message.src_adr m)
              cfg m (s, w) o st'); [| reflexivity | exact E].
    split; [exists []; cbn; rewrite app_nil_r; auto |].
    split; [reflexivity |].
    intros c Hc. eapply syn_branch_same_peer; eassumption.
Qed.

Lemma dispatch_replies_to_sender_witness :
  wire (snd (snd (Server._dispatch sample_config
                    (Message.mk SYN 7 0 [] (Some stranger))
                    (server_with (Some peer_connection),
                     world_with [Arrive (from_peer ACK 8 500 [])]))))
  = [].
Proof.
  apply (proj2 (dispatch_replies_to_sender sample_config
                  (Message.mk SYN 7 0 [] (Some stranger))
                  (server_with (Some peer_connection))
                  (world_with [Arrive (from_peer ACK 8 500 [])]))).
  reflexivity.
Defined.

(** ** The assertions of the server *)

Section Assertions.

Import Server.

Variable cfg : Config.
Hypothesis fit : constants_fit cfg.

Let P : Exn -> Prop := fun e => forall site, e <> AssertionError site.

#[local] Arguments _send_until_ack_in : simpl never.
#[local] Arguments _send_data : simpl never.
#[local] Arguments send_chunks : simpl never.
#[local] Arguments _close_connection : simpl never.
#[local] Arguments _process_get_request : simpl never.

Lemma send_until_ack_in_no_assertion msg :
  raises_only P (_send_until_ack_in cfg msg).
Proof.
  apply send_until_ack_in_raises; unfold P; intros; discriminate.
Qed.

Lemma send_data_no_assertion data :
  (Z.of_nat (List.length data) <= MAX_PAYLOAD_SIZE cfg)%Z ->
  raises_only P (_send_data cfg data).
Proof.
  intros Hlen [s w] e st' H. rewrite send_data_cases in H.
  apply Z.leb_le in Hlen. rewrite Hlen in H.
  destruct (conn s) as [c|].
  - eapply send_until_ack_in_no_assertion; exact H.
  - inversion H; subst. intros site. discriminate.
Qed.

Lemma send_chunks_no_assertion chunks :
  Forall (fun chunk =>
    (Z.of_nat (List.length (HTTP_OK_ENCODED cfg ++ chunk)) <= MAX_PAYLOAD_SIZE cfg)%Z)
    chunks ->
  raises_only P (send_chunks cfg chunks).
Proof.
  induction chunks as [|chunk chunks IH]; intros Hall st e st' H.
  - discriminate.
  - inversion Hall as [|? ? Hsize Hrest]; subst.
    change (send_chunks cfg (chunk :: chunks) st)
      with (bind (_send_data cfg (HTTP_OK_ENCODED cfg ++ chunk))
              (fun ack => if is_none ack then ret false
                          else send_chunks cfg chunks) st) in H.
    unfold bind in H.
    destruct (_send_data cfg _ st) as [[[r|]|e0|] st1] eqn:E;
      cbn [is_none] in H; try discriminate.
    + eapply IH; eassumption.
    + inversion H; subst. eapply send_data_no_assertion; eassumption.
Qed.

Lemma close_connection_no_assertion s w e st' :
  _close_connection cfg (s, w) = (Raise e, st') -> P e.
Proof.
  destruct (conn s) as [c|] eqn:Hc.
  - rewrite (close_connection_run cfg s w c Hc).
    destruct (_send_until_ack_in cfg _ _) as [[[r|]|e0|] [s1 w1]] eqn:E;
      intros H; inversion H; subst.
    eapply send_until_ack_in_no_assertion; exact E.
  - destruct s as [a sk cn]. cbn in Hc. subst.
    unfold _close_connection, bind, self. cbn. discriminate.
Qed.

(** The request handler, entered with a connection as [_dispatch]
    enters it. *)
Lemma process_get_request_no_assertion m s w c e st' :
  conn s = Some c ->
  _process_get_request cfg m (s, w) = (Raise e, st') -> P e.
Proof.
  intros Hc. destruct fit as [[Hpos Hcode] Hnf].
  destruct (lookup_file (Message.get_payload_as_text m) (files w))
    as [content|] eqn:Hf.
  - rewrite (process_get_request_file cfg m s w c content Hc Hf).
    destruct (send_chunks cfg _ _) as [[[|]|e0|] [s1 w1]] eqn:E;
      intros H; try discriminate.
    + eapply close_connection_no_assertion; exact H.
    + inversion H; subst.
      eapply send_chunks_no_assertion; [|exact E].
      eapply Forall_impl; [|apply (get_data_bound _ Hpos content)].
      intros chunk Hch. cbv beta in Hch.
      rewrite length_app, Nat2Z.inj_add, Hcode. lia.
  - rewrite (process_get_request_missing cfg m s w c Hc Hf).
    destruct (_send_data cfg _ _) as [[[r|]|e0|] [s1 w1]] eqn:E;
      intros H; try discriminate.
    + eapply close_connection_no_assertion; exact H.
    + inversion H; subst.
      eapply send_data_no_assertion; [exact Hnf | exact E].
Qed.

Lemma dispatch_rec_no_assertion d : forall m st e st',
  dispatch_rec cfg d m st = (Raise e, st') -> P e.
Proof.
  induction d as [|d IH]; intros m [s w] e st' H; [discriminate |].
  rewrite dispatch_rec_step in H. cbv zeta in H.
  destruct (foreign_address s m) eqn:Ef.
  { destruct (foreign_packet_result_cases cfg m s
                (write_log DEBUG Dispatching_message w)) as [[v Hv]|Hv];
      rewrite Hv in H; inversion H; subst. intros site. discriminate. }
  destruct (Message.is_syn m) eqn:Es.
  - rewrite receive_connection_cases, Es, Ef in H.
    destruct (_send_until_ack_in cfg _ _) as [[[r|]|e0|] st0] eqn:E;
      try discriminate.
    + destruct (Message.is_ack_only r); [discriminate |].
      eapply IH; exact H.
    + inversion H; subst. eapply send_until_ack_in_no_assertion; exact E.
  - destruct (conn s) as [c|] eqn:Hc; [|discriminate].
    destruct (_ =? _)%Z; [|discriminate].
    destruct (PacketType_eqb _ APP); [|discriminate].
    eapply process_get_request_no_assertion; eassumption.
Qed.

End Assertions.

(** X12.  With constants that fit (a chunk and the not-found status fit
    into [MAX_PAYLOAD_SIZE]), none of the four assertions of the server
    fails while [_dispatch] handles a message, whatever the message, the
    state of the server and the events to come: [_receive_connection] is
    reached with a SYN of the connected peer only, [_process_get_request]
    with a connection only, and [_send_data] with data that fit only. *)
Theorem dispatch_assertions_hold cfg m st site :
  constants_fit cfg ->
  fst (Server._dispatch cfg m st) <> Raise (AssertionError site).
Proof.
  intros Hfit. unfold Server._dispatch.
  destruct (Server.dispatch_rec cfg _ m st) as [[u|e|] st'] eqn:E;
    cbn; try discriminate.
  intros Heq. inversion Heq; subst.
  apply (dispatch_rec_no_assertion cfg Hfit _ _ _ _ _ E site). reflexivity.
Qed.

Lemma dispatch_assertions_hold_witness :
  fst (Server._dispatch sample_config
         (from_peer APP 101 501 (list_byte_of_string "data.bin"))
         (server_with (Some peer_connection),
          world_with [Arrive (from_peer ACK 102 501 [])]))
  <> Raise (AssertionError Data_chunk_too_large).
Proof.
  apply (dispatch_assertions_hold sample_config
           (from_peer APP 101 501 (list_byte_of_string "data.bin"))
           (server_with (Some peer_connection),
            world_with [Arrive (from_peer ACK 102 501 [])])
           Data_chunk_too_large).
  repeat split; vm_compute; discriminate.
Defined.

(** ** The serve loop *)

Section ServeLoop.

Import Server.

Variable cfg : Config.

Lemma recv_within_silent k : forall evs,
  silent_for k evs = true -> recv_within k evs = (TimedOut, skipn k evs).
Proof.
  induction k as [|k IH]; intros evs H; [reflexivity |].
  destruct evs as [|[m| |] rest]; cbn in *; try discriminate; auto.
Qed.

(** One round leaves [self.sock] alone, however it ends. *)
Lemma serve_round_keeps_sock s w o st' :
  serve_round cfg (s, w) = (o, st') -> sock (fst st') = sock s.
Proof.
  unfold serve_round, except_timeout.
  set (body := bind self _).
  destruct (body (s, w)) as [o1 [s1 w1]] eqn:E.
  assert (Hs1 : sock s1 = sock s).
  { subst body. unfold bind at 1 in E. unfold self at 1 in E. cbn [fst snd] in E.
    unfold bind at 1 in E.
    destruct ((if is_none (conn s) then logging INFO (Serving_on (adr s))
               else ret tt) (s, w)) as [o0 [s0 w0]] eqn:E0.
    assert (Hs0 : s0 = s /\ o0 = Return tt).
    { destruct (is_none (conn s)); inversion E0; auto. }
    destruct Hs0 as [-> ->].
    unfold bind at 1 in E. unfold io, try_read_message in E. cbn [fst snd] in E.
    destruct (sock s) as [fd|] eqn:Hs; [|inversion E; subst; exact Hs].
    destruct (if is_none (conn s) then None else Some (CONNECTION_TIMEOUT cfg))
      as [ticks|].
    - destruct (recv_within ticks (inbox w0)) as [[m| |] evs];
        try (inversion E; subst; exact Hs).
      apply dispatch_keeps_sock in E. cbn [fst] in E.
      rewrite E. exact Hs.
    - destruct (recv_blocking (inbox w0)) as [[m| |] evs];
        try (inversion E; subst; exact Hs).
      apply dispatch_keeps_sock in E. cbn [fst] in E.
      rewrite E. exact Hs. }
  destruct o1 as [u|e|].
  - intros H. inversion H; subst. exact Hs1.
  - destruct e; intros H; inversion H; subst; exact Hs1.
  - intros H. inversion H; subst. exact Hs1.
Qed.

Lemma serve_loop_keeps_sock rounds : forall s w o st',
  _serve_loop cfg rounds (s, w) = (o, st') -> sock (fst st') = sock s.
Proof.
  induction rounds as [|k IH]; intros s w o st' H.
  - inversion H; subst. reflexivity.
  - cbn [_serve_loop] in H. unfold bind in H.
    destruct (serve_round cfg (s, w)) as [o1 [s1 w1]] eqn:E.
    apply serve_round_keeps_sock in E. cbn [fst] in E.
    destruct o1 as [u|e|]; try (inversion H; subst; exact E).
    apply IH in H. congruence.
Qed.

End ServeLoop.

(** X13.  A connected server that hears nothing for
    [CONNECTION_TIMEOUT] (the retry threshold times the acknowledgment
    timeout) abandons the connection with the cause "Connection timeout
    expired"; the round of the loop ends normally and nothing is sent. *)
Theorem connection_timeout_abandons cfg s w fd c :
  Server.sock s = Some fd ->
  Server.conn s = Some c ->
  silent_for (DEFAULT_RETRY_THRESHOLD cfg) (inbox w) = true ->
  Server.serve_round cfg (s, w)
  = (Return tt,
     (with_conn None s,
      write_log WARNING (Client_connectivity_lost Connection_timeout_expired)
        (with_inbox (skipn (DEFAULT_RETRY_THRESHOLD cfg) (inbox w)) w))).
Proof.
  intros Hs Hc Hq. destruct s as [a sk cn]. cbn in Hs, Hc. subst.
  unfold Server.serve_round, Server.except_timeout, Server.bind, Server.self,
    Server.io, try_read_message, Server.CONNECTION_TIMEOUT.
  cbn. rewrite (recv_within_silent _ _ Hq). reflexivity.
Qed.

Lemma connection_timeout_abandons_witness :
  Server.conn
    (fst (snd (Server.serve_round sample_config
                 (server_with (Some peer_connection),
                  world_with [Silence; Silence; Silence]))))
  = None.
Proof.
  rewrite (connection_timeout_abandons sample_config
             (server_with (Some peer_connection))
             (world_with [Silence; Silence; Silence]) 3 peer_connection
             eq_refl eq_refl eq_refl).
  reflexivity.
Defined.

(** ** What does not end the serve loop *)

Section LoopSurvives.

Import Server.

Variable cfg : Config.
Hypothesis fit : constants_fit cfg.

Let P : Exn -> Prop :=
  fun e => e <> socket_timeout /\ forall site, e <> AssertionError site.




End LoopSurvives.



(** [_create_and_bind_socket] when [bind] succeeds: the new socket is
    bound to [self.adr] and becomes [self.sock]. *)
Lemma create_and_bind_socket_ok s w :
  bind_refused w = false ->
  exists w1,
    Server._create_and_bind_socket (s, w)
    = (Return tt, (Server.mk (Server.adr s) (Some (next_sock w)) (Server.conn s), w1))
    /\ socket_is_open (next_sock w) w1 = true
    /\ lookup_bound (next_sock w) (bound w1) = Some (Server.adr s).
Proof.
  intros Hb. destruct s as [a sk cn].
  unfold Server._create_and_bind_socket, Server.bind, Server.self, Server.io,
    socket_socket, sock_bind, sock_getsockname, Server.set_sock, Server.set_adr,
    Server.logging.
  cbn. rewrite Hb. cbn. rewrite Nat.eqb_refl. cbn.
  eexists. split; [reflexivity |]. unfold socket_is_open. cbn.
  rewrite Nat.eqb_refl. split; reflexivity.
Qed.

Lemma closed_socket_is_closed fd w :
  socket_is_open fd (snd (sock_close fd w)) = false.
Proof.
  unfold socket_is_open, sock_close. cbn.
  induction (open_socks w) as [|x l IH]; [reflexivity |].
  cbn [filter]. destruct (Nat.eqb x fd) eqn:E; cbn [negb existsb]; [exact IH |].
  rewrite Nat.eqb_sym, E. exact IH.
Qed.

(** X15.  Once [bind] succeeded, every exception that ends [serve] (a
    user interrupt, or any other exception of the loop) reaches the
    caller only after the socket was closed and [self.sock] reset to
    [None]; the exception is the one the loop raised. *)
Theorem serve_releases_after_bind cfg rounds s w e st' :
  bind_refused w = false ->
  Server.serve cfg rounds (s, w) = (Raise e, st') ->
  Server.sock (fst st') = None
  /\ socket_is_open (next_sock w) (snd st') = false
  /\ exists st1 st2,
       Server._create_and_bind_socket (s, w) = (Return tt, st1)
       /\ Server._serve_loop cfg rounds st1 = (Raise e, st2).
Proof.
  intros Hb H.
  destruct (create_and_bind_socket_ok s w Hb) as (w1 & Hc & _ & _).
  unfold Server.serve, Server.try_finally in H.
  unfold Server.bind at 1 in H. rewrite Hc in H.
  destruct (Server._serve_loop cfg rounds _) as [o1 [s2 w2]] eqn:E.
  pose proof (serve_loop_keeps_sock cfg rounds _ _ _ _ E) as Hs2.
  cbn [fst Server.sock] in Hs2.
  unfold Server.bind, Server.self, Server.io, Server.set_sock in H.
  cbn [fst snd] in H. rewrite Hs2 in H.
  destruct o1 as [u|e1|]; cbn in H; inversion H; subst; cbn [fst snd].
  split; [reflexivity |].
  split; [apply (closed_socket_is_closed (next_sock w) w2) |].
  eexists. eexists. split; [exact Hc | exact E].
Qed.

Lemma serve_releases_after_bind_witness :
  Server.sock
    (fst (snd (Server.serve sample_config 2
                 (Server.mk home None None,
                  {| inbox := [Interrupt]; wire := []; journal := []; files := [];
                     open_socks := []; bound := []; next_sock := 3;
                     bind_refused := false |}))))
  = None.
Proof.
  refine (proj1 (serve_releases_after_bind sample_config 2
                   (Server.mk home None None)
                   {| inbox := [Interrupt]; wire := []; journal := []; files := [];
                      open_socks := []; bound := []; next_sock := 3;
                      bind_refused := false |}
                   KeyboardInterrupt _ eq_refl _)).
  vm_compute. reflexivity.
Defined.
